(** * The serialized CUDA context of package [cu]

    A verification model of [ctx.go] and [ctx_debug.go]: the [Ctx] record,
    its constructors, [Close], the [Run] loop and [Do].

    The sequential code (constructors, [Close]) is embedded in a small
    state-and-panic monad over the channel heap; the goroutines ([Run],
    [Do], and the constructor waiting for the run loop) are embedded as
    program points with an interleaving step function over unbuffered Go
    channels.

    The helpers of the binding generator, [cmd/gencublas/binding.go], are
    pure functions on strings, C types and parsed declarations. *)

From Stdlib Require Import ZArith String Ascii.
From stdpp Require Import base numbers option list strings gmap.

Local Open Scope Z_scope.

(** ** Go values *)

(** A Go [error]: [None] is [nil]; a non-nil error carries its code. *)
Abbreviation error := (option Z).

(** Channels are references into the channel heap; a channel-typed field
    holds [None] when it is the nil channel. *)
Abbreviation chan := nat.

(** Run-time panics that the modelled code can raise. *)
Inductive panic : Type :=
| PanicErr (e : Z)        (* panic(err) *)
| CloseNilChan            (* close of nil channel *)
| CloseClosedChan         (* close of closed channel *)
| SendClosedChan          (* send on closed channel *)
| NilFuncCall.            (* call of a nil func value *)

(** [type Ctx struct] of ctx.go, lines 11-23.  [CUContext] is the embedded
    [CUContext{ctx C.CUcontext}], a pointer: [0] is the empty handle.  The
    mutex [mu] is [false] when unlocked (its zero value). *)
Record Ctx : Type := mkCtx {
  CUContext : Z;
  work : option chan;
  errChan : option chan;
  done : option chan;
  err : error;
  mu : bool;
  device : Z;
  flags : Z;
  locked : bool;
  doneClosed : bool
}.

(** ** The channel heap *)

Record Chans : Type := mkChans {
  nextChan : chan;
  closedChans : list chan
}.

Definition is_closed (h : Chans) (c : chan) : bool :=
  bool_decide (c ∈ closedChans h).

(** A channel value is valid when it is not nil and has not been closed. *)
Definition valid_chan (h : Chans) (c : option chan) : bool :=
  match c with
  | Some ch => negb (is_closed h ch)
  | None => false
  end.

(** ** Sequential code: state, effect log and panics *)

Inductive field : Type := FErrChan | FWork | FHandle.

(** The effects of the sequential code, in program order. *)
Inductive effect : Type :=
| EMake (c : chan)                  (* make(chan ...) *)
| ECloseChan (c : chan)             (* close(c) *)
| EClear (f : field)                (* ctx.f = nil / empty *)
| ECreate (fl d : Z)                (* C.cuCtxCreate *)
| EDestroy (h : Z)                  (* C.cuCtxDestroy *)
| ESetFinalizer                     (* runtime.SetFinalizer *)
| EGoRun (c : option chan).         (* go ctx.Run(c) *)

Record Mach : Type := mkMach {
  chans : Chans;
  effects : list effect
}.

Inductive Res (A : Type) : Type :=
| Ok (a : A) (m : Mach)
| Panicked (p : panic) (m : Mach).
Arguments Ok {A} a m.
Arguments Panicked {A} p m.

Definition M (A : Type) : Type := Mach → Res A.

#[global] Instance M_ret : MRet M := λ A a m, Ok a m.
#[global] Instance M_bind : MBind M := λ A B f c m,
  match c m with
  | Ok a m' => f a m'
  | Panicked p m' => Panicked p m'
  end.

Definition emit (e : effect) : M unit :=
  λ m, Ok () (mkMach (chans m) (effects m ++ [e])).

Definition do_panic {A} (p : panic) : M A := λ m, Panicked p m.

(** [make(chan T)]: a fresh, open, unbuffered channel. *)
Definition make_chan : M chan :=
  λ m, let c := nextChan (chans m) in
       Ok c (mkMach (mkChans (S c) (closedChans (chans m)))
                    (effects m ++ [EMake c])).

(** [close(c)]: panics on a nil or an already closed channel. *)
Definition close_chan (c : option chan) : M unit :=
  λ m, match c with
       | None => Panicked CloseNilChan m
       | Some ch =>
           if is_closed (chans m) ch then Panicked CloseClosedChan m
           else Ok () (mkMach (mkChans (nextChan (chans m))
                                       (ch :: closedChans (chans m)))
                              (effects m ++ [ECloseChan ch]))
       end.

Section Native.

(** The driver calls, wrapped by [result] as in the source: each yields the
    Go error of the call ([None] when the driver reports success).
    [cuCtxCreate fl d] also yields the handle written to [cctx]. *)
Variable cuCtxCreate : Z → Z → error * Z.
Variable cuCtxDestroy : Z → error.

(** ctx_debug.go, lines 12-21.  [done] is left at its zero value. *)
Definition newContext (c : Z) : M Ctx :=
  w ← make_chan;
  e ← make_chan;
  emit ESetFinalizer;;
  mret (mkCtx c (Some w) (Some e) None None false 0 0 false false).

Definition with_device_flags (ctx : Ctx) (d fl : Z) : Ctx :=
  mkCtx (CUContext ctx) (work ctx) (errChan ctx) (done ctx) (err ctx)
        (mu ctx) d fl (locked ctx) (doneClosed ctx).

(** ctx.go, lines 46-57. *)
Definition NewManuallyManagedContext (d fl : Z) : M Ctx :=
  emit (ECreate fl d);;
  match cuCtxCreate fl d with
  | (Some e, _) => do_panic (PanicErr e)
  | (None, cctx) =>
      ctx ← newContext cctx;
      mret (with_device_flags ctx d fl)
  end.

(** ctx.go, lines 67-72. *)
Definition CtxFromCUContext (d cuctx fl : Z) : M Ctx :=
  ctx ← newContext cuctx;
  mret (with_device_flags ctx d fl).

(** ctx.go, lines 26-37: [NewContext] up to and including
    [go ctx.Run(errChan)].  It yields the executor and the completion
    channel on which the constructor then waits (lines 38-42, the waiter
    of the goroutine model below). *)
Definition NewContext (d fl : Z) : M (Ctx * chan) :=
  emit (ECreate fl d);;
  match cuCtxCreate fl d with
  | (Some e, _) => do_panic (PanicErr e)
  | (None, cctx) =>
      ctx ← newContext cctx;
      let ctx := with_device_flags ctx d fl in
      c ← make_chan;
      emit (EGoRun (Some c));;
      mret (ctx, c)
  end.

Definition clear_errChan (ctx : Ctx) : Ctx :=
  mkCtx (CUContext ctx) (work ctx) None (done ctx) (err ctx)
        (mu ctx) (device ctx) (flags ctx) (locked ctx) (doneClosed ctx).

Definition clear_work (ctx : Ctx) : Ctx :=
  mkCtx (CUContext ctx) None (errChan ctx) (done ctx) (err ctx)
        (mu ctx) (device ctx) (flags ctx) (locked ctx) (doneClosed ctx).

Definition clear_handle (ctx : Ctx) : Ctx :=
  mkCtx 0 (work ctx) (errChan ctx) (done ctx) (err ctx)
        (mu ctx) (device ctx) (flags ctx) (locked ctx) (doneClosed ctx).

(** ctx_debug.go, lines 24-45.  The method mutates its receiver; the model
    returns the receiver after the call together with the returned error. *)
Definition Close (ctx : Ctx) : M (Ctx * error) :=
  if bool_decide (CUContext ctx = 0) then mret (ctx, None)
  else
    ctx ← match errChan ctx with
          | Some _ =>
              close_chan (errChan ctx);;
              emit (EClear FErrChan);;
              mret (clear_errChan ctx)
          | None => mret ctx
          end;
    ctx ← match work ctx with
          | Some _ =>
              close_chan (work ctx);;
              emit (EClear FWork);;
              mret (clear_work ctx)
          | None => mret ctx
          end;
    emit (EDestroy (CUContext ctx));;
    let e := cuCtxDestroy (CUContext ctx) in
    emit (EClear FHandle);;
    mret (clear_handle ctx, e).

End Native.

(** ** Goroutines

    Closures submitted through [Do] act on the state that the context
    guards (device memory, a shared log, ...): a closure is a total
    transformer of that state returning a Go error.  A [func() error] value
    is [None] when it is the nil func.

    A step of a goroutine is a rendezvous on an unbuffered channel, an
    operation on a closed channel, or a piece of straight-line code.  No
    step writes a field of the executor, so a channel operand is read when
    the goroutine reaches the operation and kept while it is parked; in
    [ctx.errChan <- w()] the operand is read once [w()] has returned.
    [Close], which does write the fields, is sequential code: it runs
    between two steps of the others ([close_now] below). *)

Section Goroutines.

Context {W : Type}.
Variable SetCurrentContext : Z → error.

Definition closure : Type := W → W * error.

(** Program points of [Ctx.Run] (ctx.go, lines 121-148).  A goroutine
    parked on a channel operation holds the channel value it evaluated. *)
Inductive RunPC : Type :=
| R_start (c : option chan)              (* 122-125: entered Run(c) *)
| R_report (c : chan) (e : error)        (* 127: parked on errChan <- err *)
| R_close (c : option chan)              (* 133: close(errChan) *)
| R_select (cw cd : option chan)         (* 138-141: parked in select *)
| R_call (w : option closure)            (* 140: received w, about to call *)
| R_running (f : closure)                (* 140: inside w() *)
| R_send (c : option chan) (e : error)   (* 140: parked on ctx.errChan <- e *)
| R_unlock                               (* 146: runtime.UnlockOSThread *)
| R_ret (e : error)                      (* Run returned e *)
| R_panic (p : panic).

(** Program points of [Ctx.Do] (ctx.go, lines 75-78). *)
Inductive DoPC : Type :=
| D_send (c : option chan) (fn : option closure)  (* 76: ctx.work <- fn *)
| D_recv (c : option chan)                         (* 77: <-ctx.errChan *)
| D_ret (e : error)                                (* Do returned e *)
| D_panic (p : panic).

(** Program points of [NewContext] after its go statement (ctx.go, lines
    38-42). *)
Inductive WaitPC : Type :=
| W_recv (c : chan)       (* 38: err := <-errChan *)
| W_ret                   (* 42: return ctx *)
| W_panic (p : panic).    (* 39: panic(err) *)

(** A goroutine calling [ctx.Run(c)] (ctx.go, line 121). *)
Definition Run (c : option chan) : RunPC := R_start c.

(** A goroutine calling [ctx.Do(fn)] (ctx.go, lines 75-76): it evaluates
    [ctx.work] and parks on the send. *)
Definition Do (ctx : Ctx) (fn : option closure) : DoPC :=
  D_send (work ctx) fn.

(** The program: one executor, the channel heap, the state its closures
    act on, at most one goroutine in [Run], the goroutines calling [Do],
    and at most one constructor waiting for the run loop. *)
Record System : Type := mkSystem {
  exec : Ctx;
  heap : Chans;
  world : W;
  runloop : option RunPC;
  callers : list DoPC;
  waiter : option WaitPC
}.

(** An unrecovered panic in any goroutine ends the program. *)
Definition do_panicked (d : DoPC) : bool :=
  match d with D_panic _ => true | _ => false end.

Definition crashed (s : System) : bool :=
  match runloop s with Some (R_panic _) => true | _ => false end
  || existsb do_panicked (callers s)
  || match waiter s with Some (W_panic _) => true | _ => false end.

(** What the run loop does that others observe. *)
Inductive event : Type :=
| EvSubmit (i : nat) (fn : option closure)  (* received the closure of caller i *)
| EvBegin (f : closure)                     (* entered the closure *)
| EvEnd (e : error)                         (* the closure returned e *)
| EvPush (i : nat) (e : error).             (* handed e to caller i *)

Definition set_runloop (s : System) (pc : RunPC) : System :=
  mkSystem (exec s) (heap s) (world s) (Some pc) (callers s) (waiter s).

Definition set_caller (s : System) (i : nat) (d : DoPC) : System :=
  mkSystem (exec s) (heap s) (world s) (runloop s) (<[i:=d]> (callers s))
           (waiter s).

Definition set_waiter (s : System) (w : WaitPC) : System :=
  mkSystem (exec s) (heap s) (world s) (runloop s) (callers s) (Some w).

Definition close_in (s : System) (c : chan) : System :=
  mkSystem (exec s) (mkChans (nextChan (heap s)) (c :: closedChans (heap s)))
           (world s) (runloop s) (callers s) (waiter s).

Definition set_world (s : System) (w : W) : System :=
  mkSystem (exec s) (heap s) w (runloop s) (callers s) (waiter s).

(** The select statement of the loop, entered: both channel operands are
    evaluated (ctx.go, lines 138-141). *)
Definition enter_select (s : System) : RunPC :=
  R_select (work (exec s)) (done (exec s)).

(** Steps the run loop takes on its own. *)
Definition Run_step (s : System) : option (list event * System) :=
  match runloop s with
  | Some (R_start c) =>
      match SetCurrentContext (CUContext (exec s)) with
      | Some e =>
          match c with
          | Some ch => Some ([], set_runloop s (R_report ch (Some e)))
          | None => Some ([], set_runloop s (R_ret (Some e)))
          end
      | None => Some ([], set_runloop s (R_close c))
      end
  | Some (R_report ch _) =>
      if is_closed (heap s) ch
      then Some ([], set_runloop s (R_panic SendClosedChan)) else None
  | Some (R_close None) => Some ([], set_runloop s (R_panic CloseNilChan))
  | Some (R_close (Some ch)) =>
      if is_closed (heap s) ch
      then Some ([], set_runloop s (R_panic CloseClosedChan))
      else Some ([], set_runloop (close_in s ch) (enter_select s))
  | Some (R_select (Some cw) _) =>
      (* a closed channel yields the zero value: the nil func *)
      if is_closed (heap s) cw
      then Some ([], set_runloop s (R_call None)) else None
  | Some (R_select None _) => None
  | Some (R_call None) => Some ([], set_runloop s (R_panic NilFuncCall))
  | Some (R_call (Some f)) => Some ([EvBegin f], set_runloop s (R_running f))
  | Some (R_running f) =>
      let r := f (world s) in
      Some ([EvEnd r.2],
            set_runloop (set_world s r.1) (R_send (errChan (exec s)) r.2))
  | Some (R_send (Some ch) _) =>
      if is_closed (heap s) ch
      then Some ([], set_runloop s (R_panic SendClosedChan)) else None
  | Some (R_send None _) => None
  | Some R_unlock => Some ([], set_runloop s (R_ret None))
  | Some (R_ret _) | Some (R_panic _) | None => None
  end.

(** The [case <-ctx.done] branch of the select: taken when [done] is closed
    (nothing ever sends on it). *)
Definition Run_break (s : System) : option (list event * System) :=
  match runloop s with
  | Some (R_select _ (Some cd)) =>
      if is_closed (heap s) cd
      then Some ([], set_runloop s R_unlock) else None
  | _ => None
  end.

(** The error the run loop is parked sending, its channel, and where the
    loop continues once the value is taken. *)
Definition err_offer (s : System) : option (chan * error * RunPC) :=
  match runloop s with
  | Some (R_report ch e) => Some (ch, e, R_ret None)
  | Some (R_send (Some ch) e) => Some (ch, e, enter_select s)
  | _ => None
  end.

(** Rendezvous on the task channel: caller [i] hands its closure over. *)
Definition submit (s : System) (i : nat) : option (list event * System) :=
  match callers s !! i, runloop s with
  | Some (D_send (Some c) fn), Some (R_select (Some cw) _) =>
      if bool_decide (c = cw) && negb (is_closed (heap s) c)
      then Some ([EvSubmit i fn],
                 set_runloop (set_caller s i (D_recv (errChan (exec s))))
                             (R_call fn))
      else None
  | _, _ => None
  end.

(** Rendezvous on an error channel: caller [i] takes the loop's value. *)
Definition push (s : System) (i : nat) : option (list event * System) :=
  match callers s !! i, err_offer s with
  | Some (D_recv (Some c)), Some (ch, e, pc) =>
      if bool_decide (c = ch) && negb (is_closed (heap s) c)
      then Some ([EvPush i e], set_runloop (set_caller s i (D_ret e)) pc)
      else None
  | _, _ => None
  end.

(** The constructor continues with the value it received (ctx.go, lines
    38-42). *)
Definition waiter_got (e : error) : WaitPC :=
  match e with
  | Some x => W_panic (PanicErr x)
  | None => W_ret
  end.

(** Rendezvous on an error channel: the waiting constructor takes the
    loop's value. *)
Definition report (s : System) : option (list event * System) :=
  match waiter s, err_offer s with
  | Some (W_recv c), Some (ch, e, pc) =>
      if bool_decide (c = ch) && negb (is_closed (heap s) c)
      then Some ([], set_runloop (set_waiter s (waiter_got e)) pc)
      else None
  | _, _ => None
  end.

(** Steps caller [i] takes on its own: a send on a closed channel panics,
    a receive from a closed channel yields nil. *)
Definition Do_step (s : System) (i : nat) : option (list event * System) :=
  match callers s !! i with
  | Some (D_send (Some c) _) =>
      if is_closed (heap s) c
      then Some ([], set_caller s i (D_panic SendClosedChan)) else None
  | Some (D_recv (Some c)) =>
      if is_closed (heap s) c
      then Some ([], set_caller s i (D_ret None)) else None
  | _ => None
  end.

Definition wait_step (s : System) : option (list event * System) :=
  match waiter s with
  | Some (W_recv c) =>
      if is_closed (heap s) c
      then Some ([], set_waiter s (waiter_got None)) else None
  | _ => None
  end.

(** What the scheduler picks next. *)
Inductive choice : Type :=
| RunLocal | RunBreak | Submit (i : nat) | Push (i : nat) | Report
| DoLocal (i : nat) | WaitLocal.

Definition step (s : System) (c : choice) : option (list event * System) :=
  if crashed s then None
  else match c with
       | RunLocal => Run_step s
       | RunBreak => Run_break s
       | Submit i => submit s i
       | Push i => push s i
       | Report => report s
       | DoLocal i => Do_step s i
       | WaitLocal => wait_step s
       end.

(** An execution under a schedule, with the events it produced. *)
Fixpoint execute (s : System) (sched : list choice)
    : option (list event * System) :=
  match sched with
  | [] => Some ([], s)
  | c :: sched' =>
      match step s c with
      | Some (ev, s') =>
          match execute s' sched' with
          | Some (evs, s'') => Some (ev ++ evs, s'')
          | None => None
          end
      | None => None
      end
  end.

End Goroutines.

(** ** The lifecycle of the specification

    [Ctx] has no lifecycle field.  The state machine of the run loop is read
    off the handle and the program point of the goroutine in [Run]. *)




(** The program right after a constructor returned [ctx] in machine [m]:
    no goroutine is in [Run], and each of [fns] is about to be passed to
    [Do] by a goroutine of its own. *)
Definition unstarted {W} (ctx : Ctx) (m : Mach) (w0 : W)
    (fns : list (option (@closure W))) : System :=
  mkSystem ctx (chans m) w0 None (Do ctx <$> fns) None.

(** The program when a goroutine enters [Run(c)]. *)
Definition started {W} (ctx : Ctx) (h : Chans) (w0 : W) (c : option chan)
    (fns : list (option (@closure W))) (wt : option WaitPC) : System :=
  mkSystem ctx h w0 (Some (Run c)) (Do ctx <$> fns) wt.

(** The program right after the go statement of [NewContext] (ctx.go, line
    37): the run loop was spawned with the completion channel and the
    constructor waits on it. *)
Definition auto_start {W} (cuCtxCreate : Z → Z → error * Z) (d fl : Z)
    (m : Mach) (w0 : W) (fns : list (option (@closure W)))
    : option System :=
  match NewContext cuCtxCreate d fl m with
  | Ok (ctx, c) m' =>
      Some (started ctx (chans m') w0 (Some c) fns (Some (W_recv c)))
  | Panicked _ _ => None
  end.

(** Whether the run loop is in its serving loop (ctx.go, lines 136-144). *)
Definition serving {W} (pc : option (@RunPC W)) : bool :=
  match pc with
  | Some (R_select _ _) | Some (R_call _)
  | Some (R_running _) | Some (R_send _ _) => true
  | _ => false
  end.

(** The steps the run loop has to take before it is parked in its
    select. *)
Definition rank {W} (pc : option (@RunPC W)) : nat :=
  match pc with
  | Some (R_call _) => 3
  | Some (R_start _) | Some (R_running _) => 2
  | Some (R_close _) | Some (R_send _ _) => 1
  | _ => 0
  end.

(** [Close] run to completion by a goroutine while the others stay where
    they are. *)
Definition close_now {W} (cuCtxDestroy : Z → error) (s : @System W)
    : option (error * System) :=
  match Close cuCtxDestroy (exec s) (mkMach (heap s) []) with
  | Ok (ctx, e) m =>
      Some (e, mkSystem ctx (chans m) (world s) (runloop s) (callers s)
                        (waiter s))
  | Panicked _ _ => None
  end.

(** ** One function at a time: the sequential reference

    Serving a queue of (caller, closure) pairs one after the other from the
    state [w]: the events of the run loop and the state it ends in. *)

Section Reference.

Context {W : Type}.

Definition block (i : nat) (f : @closure W) (e : error) : list (@event W) :=
  [EvSubmit i (Some f); EvBegin f; EvEnd e; EvPush i e].

Fixpoint serial (w : W) (q : list (nat * @closure W)) : list event * W :=
  match q with
  | [] => ([], w)
  | (i, f) :: q' =>
      let t := serial (f w).1 q' in (block i f (f w).2 ++ t.1, t.2)
  end.

(** The callers whose closure the loop received, with the closure, in the
    order of receipt. *)
Fixpoint arrivals (evs : list (@event W)) : list (nat * @closure W) :=
  match evs with
  | [] => []
  | EvSubmit i (Some f) :: evs' => (i, f) :: arrivals evs'
  | _ :: evs' => arrivals evs'
  end.

(** How many closures the loop has entered, and how many it has left. *)
Fixpoint begins (evs : list (@event W)) : nat :=
  match evs with
  | [] => 0
  | EvBegin _ :: evs' => S (begins evs')
  | _ :: evs' => begins evs'
  end.

Fixpoint ends (evs : list (@event W)) : nat :=
  match evs with
  | [] => 0
  | EvEnd _ :: evs' => S (ends evs')
  | _ :: evs' => ends evs'
  end.

(** The error the closure of caller [i] produced when the queue [q] was
    served from [w], if [i] is in the queue. *)
Fixpoint result_of (w : W) (q : list (nat * @closure W)) (i : nat)
    : option error :=
  match q with
  | [] => None
  | (j, f) :: q' =>
      if decide (i = j) then Some (f w).2 else result_of (f w).1 q' i
  end.

(** *** The invariant of a serving executor

    [ctx] is the executor, [cw] and [ce] its task and result channels, [cc]
    the completion channel given to [Run], [w0] the initial state and [fns]
    the closures, one per goroutine calling [Do].  [q] lists the callers
    whose closure the loop has received, in the order of receipt. *)

Variables (ctx : Ctx) (cw ce cc : chan) (w0 : W) (fns : list (@closure W)).

(** Caller [i] while the loop is between two tasks. *)
Definition idle_status (q : list (nat * closure)) (i : nat) (f : closure)
    : @DoPC W :=
  match result_of w0 q i with
  | Some e => D_ret e
  | None => D_send (Some cw) (Some f)
  end.

(** Caller [i] while the loop holds the task of caller [i0]. *)
Definition busy_status (q : list (nat * closure)) (i0 i : nat) (f : closure)
    : @DoPC W :=
  if decide (i = i0) then D_recv (Some ce) else idle_status q i f.

Definition callers_are (s : @System W) (st : nat → @closure W → @DoPC W)
    : Prop :=
  ∀ i, callers s !! i = st i <$> (fns !! i).

Definition queue_ok (q : list (nat * @closure W)) : Prop :=
  NoDup q.*1 ∧ ∀ i f, (i, f) ∈ q → fns !! i = Some f.

Definition loop_inv (s : @System W) (evs : list (@event W))
    (q : list (nat * @closure W)) : Prop :=
  match runloop s with
  | Some (R_start c) | Some (R_close c) =>
      c = Some cc ∧ is_closed (heap s) cc = false ∧ q = [] ∧ evs = [] ∧
      world s = w0 ∧ callers_are s (idle_status [])
  | Some (R_select a b) =>
      a = Some cw ∧ b = None ∧ evs = (serial w0 q).1 ∧
      world s = (serial w0 q).2 ∧ callers_are s (idle_status q)
  | Some (R_call w) =>
      ∃ q' i f, q = q' ++ [(i, f)] ∧ w = Some f ∧
        evs = (serial w0 q').1 ++ [EvSubmit i (Some f)] ∧
        world s = (serial w0 q').2 ∧ callers_are s (busy_status q' i)
  | Some (R_running g) =>
      ∃ q' i f, q = q' ++ [(i, f)] ∧ g = f ∧
        evs = (serial w0 q').1 ++ [EvSubmit i (Some f); EvBegin f] ∧
        world s = (serial w0 q').2 ∧ callers_are s (busy_status q' i)
  | Some (R_send c e) =>
      ∃ q' i f, q = q' ++ [(i, f)] ∧ c = Some ce ∧
        e = (f (serial w0 q').2).2 ∧
        evs = (serial w0 q').1 ++ [EvSubmit i (Some f); EvBegin f; EvEnd e] ∧
        world s = (f (serial w0 q').2).1 ∧ callers_are s (busy_status q' i)
  | _ => False
  end.

Definition waiter_ok (s : @System W) : Prop :=
  waiter s = None ∨ waiter s = Some (W_recv cc) ∨ waiter s = Some W_ret.

Definition Inv (s : @System W) (evs : list (@event W))
    (q : list (nat * @closure W)) : Prop :=
  exec s = ctx ∧
  is_closed (heap s) cw = false ∧ is_closed (heap s) ce = false ∧
  waiter_ok s ∧ queue_ok q ∧ loop_inv s evs q.

(** The queue after the scheduler's choice [c]: a rendezvous on the task
    channel appends the caller. *)
Definition queue_after (q : list (nat * @closure W)) (c : choice)
    : list (nat * @closure W) :=
  match c with
  | Submit i =>
      match fns !! i with
      | Some f => q ++ [(i, f)]
      | None => q
      end
  | _ => q
  end.

(** Every goroutine that called [Do] has returned. *)
Definition all_returned (s : @System W) : Prop :=
  ∀ i, (i < length fns)%nat → ∃ e, callers s !! i = Some (D_ret e).

End Reference.

(** In a well-formed heap no channel is closed before it is made. *)
Definition heap_wf (h : Chans) : Prop :=
  ∀ c, c ∈ closedChans h → (c < nextChan h)%nat.

Definition is_destroy (e : effect) : bool :=
  match e with EDestroy _ => true | _ => false end.

(** Number of native destroy-context calls in an effect log. *)
Definition destroys (l : list effect) : nat := length (filter is_destroy l).

Definition is_go (e : effect) : bool :=
  match e with EGoRun _ => true | _ => false end.

(** * Fixtures: a driver that accepts and a driver that rejects *)

Definition create_ok (fl d : Z) : error * Z := (None, 7).
Definition create_rejects (fl d : Z) : error * Z := (Some 101, 0).
Definition destroy_ok (h : Z) : error := None.
Definition setcur_ok (h : Z) : error := None.
Definition setcur_fails (h : Z) : error := Some 201.

(** The machine before anything ran. *)
Definition m0 : Mach := mkMach (mkChans 0 []) [].

(** The executor [NewManuallyManagedContext(0, 0)] returns on an accepting
    driver, and the machine it leaves. *)
Definition ctx7 : Ctx :=
  mkCtx 7 (Some 0%nat) (Some 1%nat) None None false 0 0 false false.
Definition m7 : Mach :=
  mkMach (mkChans 2 []) [ECreate 0 0; EMake 0; EMake 1; ESetFinalizer].


(** [ctx7] after [Close]. *)
Definition ctx7_closed : Ctx :=
  mkCtx 0 None None None None false 0 0 false false.
Definition m7_closed : Mach :=
  mkMach (mkChans 2 [0%nat; 1%nat])
         [ECreate 0 0; EMake 0; EMake 1; ESetFinalizer;
          ECloseChan 1; EClear FErrChan; ECloseChan 0; EClear FWork;
          EDestroy 7; EClear FHandle].

(** A closure that appends its identifier to a shared log and returns
    [e]. *)
Definition append_id (n : nat) (e : error) : @closure (list nat) :=
  λ log, (log ++ [n], e).


(** [ctx7] with its run loop parked in the select: what
    [NewContext(0, 0)] leaves once the constructor returned. *)
Definition serving7 : @System (list nat) :=
  mkSystem ctx7 (mkChans 3 [2%nat]) [] (Some (R_select (Some 0%nat) None))
           [] (Some W_ret).

(** [ctx7] when a goroutine enters [Run(nil)] and another calls [Do]. *)
Definition Run_nil7 : @System (list nat) :=
  started ctx7 (chans m7) [] None [Some (append_id 1 None)] None.

(** Three closures that log their caller and return nil, error 5, nil. *)
Definition fns3 : list (@closure (list nat)) :=
  [append_id 0 None; append_id 1 (Some 5); append_id 2 None].

(** The program right after the go statement of [NewContext(0, 0)] on an
    accepting driver, with three goroutines about to call [Do]. *)
Definition auto7 : @System (list nat) :=
  started ctx7 (mkChans 3 []) [] (Some 2%nat) (Some <$> fns3)
          (Some (W_recv 2)).

(** A schedule of [auto7]: the loop activates, the constructor returns,
    and the callers are served in the order 1, 0, 2. *)
Definition sched3 : list choice :=
  [RunLocal; RunLocal; WaitLocal;
   Submit 1; RunLocal; RunLocal; Push 1;
   Submit 0; RunLocal; RunLocal; Push 0;
   Submit 2; RunLocal; RunLocal; Push 2].

Definition queue3 : list (nat * @closure (list nat)) :=
  [(1%nat, append_id 1 (Some 5)); (0%nat, append_id 0 None);
   (2%nat, append_id 2 None)].

(** Where [sched3] leaves [auto7]. *)
Definition served3 : @System (list nat) :=
  mkSystem ctx7 (mkChans 3 [2%nat]) [1; 0; 2]%nat
           (Some (R_select (Some 0%nat) None))
           [D_ret None; D_ret (Some 5); D_ret None] (Some W_ret).

(** [auto7] on a driver that cannot make the context current. *)
Definition failing7 : @System (list nat) :=
  started ctx7 (mkChans 3 []) [] (Some 2%nat) [] (Some (W_recv 2)).

(** Case analysis of a step that was taken. *)
Ltac step_inv H :=
  unfold step, Run_step, Run_break, submit, push, report, Do_step,
    wait_step, err_offer, enter_select in H;
  repeat case_match; simplify_eq.

(** * The binding generator: cmd/gencublas/binding.go

    The helpers that turn C declarations into Go source text.  A Go string
    is its sequence of bytes, here a [string] of 8-bit characters. *)

(** ** LowerCaseFirst and UpperCaseFirst *)

(** [string(b)] for a byte [b]: Go converts an integer to the UTF-8
    encoding of that code point, one byte below 0x80 and two bytes from
    there to 0xFF. *)
Definition string_of_byte (b : N) : string :=
  if (b <? 128)%N then String (ascii_of_N b) EmptyString
  else String (ascii_of_N (N.lor 192 (N.shiftr b 6)))
         (String (ascii_of_N (N.lor 128 (N.land b 63))) EmptyString).

(** binding.go, lines 221-226: [string(s[0]|' ') + s[1:]]. *)
Definition LowerCaseFirst (s : string) : string :=
  match s with
  | EmptyString => s
  | String c rest => string_of_byte (N.lor (N_of_ascii c) 32) +:+ rest
  end.

(** binding.go, lines 230-235: [string(s[0]&^' ') + s[1:]]. *)
Definition UpperCaseFirst (s : string) : string :=
  match s with
  | EmptyString => s
  | String c rest => string_of_byte (N.ldiff (N_of_ascii c) 32) +:+ rest
  end.

Definition is_upper (b : N) : bool := (65 <=? b)%N && (b <=? 90)%N.
Definition is_lower (b : N) : bool := (97 <=? b)%N && (b <=? 122)%N.
Definition is_digit (b : N) : bool := (48 <=? b)%N && (b <=? 57)%N.

(** ** cblasTocublas *)

(** [strings.HasPrefix]. *)
Fixpoint HasPrefix (s pre : string) : bool :=
  match pre, s with
  | EmptyString, _ => true
  | String p pre', String c s' => bool_decide (c = p) && HasPrefix s' pre'
  | String _ _, EmptyString => false
  end.

(** [s[n:]]. *)
Fixpoint drop_bytes (n : nat) (s : string) : string :=
  match n, s with
  | O, _ => s
  | S n', String _ s' => drop_bytes n' s'
  | S _, EmptyString => EmptyString
  end.

(** [strings.TrimPrefix]: [s] without the leading [pre], or [s] itself
    when it does not start with [pre]. *)
Definition TrimPrefix (s pre : string) : string :=
  if HasPrefix s pre then drop_bytes (String.length pre) s else s.

(** [strings.Title] on an ASCII string: the first letter of every word is
    upper-cased, a word starting after any byte that is not a letter, a
    digit or an underscore. *)
Definition isSeparator (r : N) : bool :=
  negb (is_digit r || is_lower r || is_upper r || (r =? 95)%N).

Definition ToTitle (r : N) : N := if is_lower r then (r - 32)%N else r.

Fixpoint Title_from (prev : N) (s : string) : string :=
  match s with
  | EmptyString => EmptyString
  | String c rest =>
      String (if isSeparator prev then ascii_of_N (ToTitle (N_of_ascii c))
              else c)
             (Title_from (N_of_ascii c) rest)
  end.

Definition Title (s : string) : string := Title_from 32 s.

(** Bytes that may occur in a C identifier. *)
Definition ident_byte (c : ascii) : bool := negb (isSeparator (N_of_ascii c)).

Fixpoint ident_bytes (s : string) : bool :=
  match s with
  | EmptyString => true
  | String c rest => ident_byte c && ident_bytes rest
  end.

Section Names.

(** The package-level [prefix] of the generator's main file. *)
Variable prefix : string.

(** binding.go, lines 294-297. *)
Definition cblasTocublas (name : string) : string :=
  let retVal := TrimPrefix name prefix in
  "cublas" +:+ Title retVal.

End Names.

(** ** C types and conversion templates *)

Module cc.

(** The kinds of C types the generator distinguishes; the remaining
    kinds of the C front end are [Other]. *)
Inductive Kind : Type :=
| Undefined | Void | Ptr | Int | Float | Double | Bool
| FloatComplex | DoubleComplex | Enum | Other (n : nat).

(** A C type as the generator reads it: its kind and tag, and for a
    pointer the type it points to. *)
Inductive Type_ : Type :=
| Base (k : Kind) (tag : N)
| Pointer (elem : Type_).

Definition kind (t : Type_) : Kind :=
  match t with
  | Base k _ => k
  | Pointer _ => Ptr
  end.

Definition Element (t : Type_) : Type_ :=
  match t with
  | Pointer e => e
  | Base _ _ => t
  end.

Definition Tag (t : Type_) : N :=
  match t with
  | Base _ tag => tag
  | Pointer _ => 0%N
  end.

End cc.

#[global] Instance Kind_eq_dec : EqDecision cc.Kind.
Proof. solve_decision. Defined.

(** [bg.TypeKey]. *)
Record TypeKey : Type := mkTypeKey {
  Kind : cc.Kind;
  IsPointer : bool
}.

#[global] Instance TypeKey_eq_dec : EqDecision TypeKey.
Proof. solve_decision. Defined.

(** A conversion template, executed on a parameter name: the text it
    writes, or [None] when [Execute] returns an error. *)
Definition Template : Type := string → option string.

(** The actions that occur in the templates of binding.go: text, the
    name [{{.}}], and [{{if eq . n1 n2 ...}}th{{else}}el{{end}}]. *)
Inductive piece : Type :=
| Lit (s : string)
| Dot
| IfEq (ns : list string) (th el : string).

Definition render_piece (name : string) (p : piece) : string :=
  match p with
  | Lit s => s
  | Dot => name
  | IfEq ns th el => if bool_decide (name ∈ ns) then th else el
  end.

Definition render (ps : list piece) (name : string) : string :=
  foldr (λ p out, render_piece name p +:+ out) EmptyString ps.

(** [bg.Pure]: a template made of a text or of a parsed template. *)
Definition Pure (ps : list piece) : Template := λ name, Some (render ps name).

(** A map literal: the elements are stored in order, a later element
    replacing an earlier one with the same key. *)
Definition map_literal {K V} `{EqDecision K} (l : list (K * V)) (k : K)
    : option V :=
  foldl (λ found kv, if decide (kv.1 = k) then Some kv.2 else found) None l.

(** The parameter names that stand for a single value, not an array. *)
Definition scalar_names : list string :=
  ["alpha"; "beta"; "cScalar"; "sScalar"; "result"; "retVal"].

Definition is_scalar_name (name : string) : bool :=
  bool_decide (name ∈ scalar_names).

(** The kinds of C numbers. *)
Definition numeric (k : cc.Kind) : bool :=
  match k with
  | cc.Int | cc.Float | cc.Double | cc.FloatComplex | cc.DoubleComplex => true
  | _ => false
  end.

(** binding.go, lines 20-42. *)
Definition goTypes : TypeKey → option Template :=
  map_literal
    [ (mkTypeKey cc.Undefined false, Pure [Lit "<undefined>"]);
      (mkTypeKey cc.Int false, Pure [Lit "int"]);
      (mkTypeKey cc.Float false, Pure [Lit "float32"]);
      (mkTypeKey cc.Float true,
       Pure [IfEq scalar_names "float32" "[]float32"]);
      (mkTypeKey cc.Double false, Pure [Lit "float64"]);
      (mkTypeKey cc.Double true,
       Pure [IfEq scalar_names "float64" "[]float64"]);
      (mkTypeKey cc.Bool false, Pure [Lit "bool"]);
      (mkTypeKey cc.FloatComplex false, Pure [Lit "complex64"]);
      (mkTypeKey cc.DoubleComplex false, Pure [Lit "complex128"]);
      (mkTypeKey cc.FloatComplex true,
       Pure [IfEq scalar_names "complex64" "[]complex64"]);
      (mkTypeKey cc.DoubleComplex true,
       Pure [IfEq scalar_names "complex128" "[]complex128"]);
      (mkTypeKey cc.Int true, Pure [IfEq scalar_names "int" "[]int"]) ].

(** binding.go, lines 114-145.  The key of [void*] occurs twice. *)
Definition cgoTypes : TypeKey → option Template :=
  map_literal
    [ (mkTypeKey cc.Void true, Pure [Lit "unsafe.Pointer(&"; Dot; Lit "[0])"]);
      (mkTypeKey cc.Int false, Pure [Lit "C.int("; Dot; Lit ")"]);
      (mkTypeKey cc.Float false, Pure [Lit "C.float("; Dot; Lit ")"]);
      (mkTypeKey cc.Double false, Pure [Lit "C.double("; Dot; Lit ")"]);
      (mkTypeKey cc.Float true,
       Pure [Lit "(*C.float)(&"; Dot; IfEq scalar_names "" "[0]"; Lit ")"]);
      (mkTypeKey cc.Double true,
       Pure [Lit "(*C.double)(&"; Dot; IfEq scalar_names "" "[0]"; Lit ")"]);
      (mkTypeKey cc.Bool false, Pure [Lit "C.bool("; Dot; Lit ")"]);
      (mkTypeKey cc.FloatComplex false,
       Pure [Lit "*(*C.cuComplex)(unsafe.Pointer("; Dot; Lit "))"]);
      (mkTypeKey cc.DoubleComplex false,
       Pure [Lit "*(*C.cuDoubleComplex)(unsafe.Pointer("; Dot; Lit "))"]);
      (mkTypeKey cc.FloatComplex true,
       Pure [Lit "(*C.cuComplex)(unsafe.Pointer(&"; Dot;
             IfEq scalar_names "" "[0]"; Lit "))"]);
      (mkTypeKey cc.DoubleComplex true,
       Pure [Lit "(*C.cuDoubleComplex)(unsafe.Pointer(&"; Dot;
             IfEq scalar_names "" "[0]"; Lit "))"]);
      (mkTypeKey cc.Void true,
       Pure [Lit "unsafe.Pointer(&"; Dot; IfEq ["alpha"; "beta"] "" "[0]";
             Lit ")"]);
      (mkTypeKey cc.Int true,
       Pure [Lit "(*C.int)(&"; Dot; IfEq scalar_names "" "[0]"; Lit ")"]) ].

(** How a generator function ends. *)
Inductive gen_panic : Type :=
| TemplateError       (* panic(err) after Execute *)
| UnknownTypeKey      (* "unknown type key: ..." *)
| InvalidType         (* "invalid type: ..." *)
| UnknownType.        (* "unknown type: ..." *)

Inductive generated : Type :=
| Text (s : string)
| GenPanic (p : gen_panic).

(** [s.Execute(&buf, name)], then [panic(err)] or [return buf.String()]. *)
Definition execute_template (s : Template) (name : string) : generated :=
  match s name with
  | Some out => Text out
  | None => GenPanic TemplateError
  end.

(** The first of the maps [types] that has the key [k]. *)
Fixpoint first_mapping {K} (types : list (K → option Template)) (k : K)
    : option Template :=
  match types with
  | [] => None
  | t :: types' =>
      match t k with
      | Some s => Some s
      | None => first_mapping types' k
      end
  end.

(** The key under which a type is looked up (binding.go, lines 59-63 and
    165-169). *)
Definition type_key (typ : cc.Type_) : TypeKey :=
  let k := cc.kind typ in
  let isPtr := bool_decide (cc.kind typ = cc.Ptr) in
  mkTypeKey (if isPtr then cc.kind (cc.Element typ) else k) isPtr.

(** binding.go, lines 55-84.  A nil [typ] is [None]. *)
Definition GoTypeFor (typ : option cc.Type_) (name : string)
    (types : list (TypeKey → option Template)) : generated :=
  match typ with
  | None => Text "<nil>"
  | Some t =>
      match first_mapping types (type_key t) with
      | Some s => execute_template s name
      | None =>
          match goTypes (type_key t) with
          | Some s => execute_template s name
          | None => GenPanic UnknownTypeKey
          end
      end
  end.

(** binding.go, lines 161-190. *)
Definition CgoConversionFor (name : string) (typ : option cc.Type_)
    (types : list (TypeKey → option Template)) : generated :=
  match typ with
  | None => Text "<nil>"
  | Some t =>
      match first_mapping types (type_key t) with
      | Some s => execute_template s name
      | None =>
          match cgoTypes (type_key t) with
          | Some s => execute_template s name
          | None => GenPanic UnknownTypeKey
          end
      end
  end.

Section Enums.

(** [xc.Dict.S]: the name a tag stands for. *)
Variable Dict : N → string.

(** binding.go, lines 89-112. *)
Definition GoTypeForEnum (typ : option cc.Type_) (name : string)
    (types : list (string → option Template)) : generated :=
  match typ with
  | None => Text "<nil>"
  | Some t =>
      if bool_decide (cc.kind t ≠ cc.Enum) then GenPanic InvalidType
      else
        let tag := cc.Tag t in
        match (if bool_decide (tag ≠ 0%N)
               then first_mapping types (Dict tag) else None) with
        | Some s => execute_template s name
        | None => GenPanic UnknownType
        end
  end.

(** binding.go, lines 195-217. *)
Definition CgoConversionForEnum (name : string) (typ : option cc.Type_)
    (types : list (string → option Template)) : generated :=
  match typ with
  | None => Text "<nil>"
  | Some t =>
      if bool_decide (cc.kind t ≠ cc.Enum) then GenPanic InvalidType
      else
        let tag := cc.Tag t in
        match (if bool_decide (tag ≠ 0%N)
               then first_mapping types (Dict tag) else None) with
        | Some s => execute_template s name
        | None => GenPanic UnknownType
        end
  end.

End Enums.

(** ** DocComments *)

(** The part of [go/ast] that [DocComments] reads. *)
Inductive Expr : Type :=
| Ident (id : string)          (* T *)
| StarExpr (X : Expr)          (* *T *)
| OtherExpr.

Record FuncDecl : Type := mkFuncDecl {
  Doc : option (list string);      (* fn.Doc, and fn.Doc.List *)
  Recv : option (list Expr);       (* fn.Recv, and the types of its List *)
  Name : string                    (* fn.Name.String() *)
}.

Inductive Decl : Type :=
| FuncD (fn : FuncDecl)
| GenD.                            (* any other declaration *)

(** binding.go, lines 256-262: the type a function is filed under. *)
Definition receiver_name (fn : FuncDecl) : string :=
  match Recv fn with
  | Some (Ident id :: _) => id
  | _ => EmptyString
  end.

(** binding.go, lines 251-268: the body of the innermost loop. *)
Definition add_decl (docs : gmap string (gmap string (list string)))
    (n : Decl) : gmap string (gmap string (list string)) :=
  match n with
  | GenD => docs
  | FuncD fn =>
      match Doc fn with
      | None => docs
      | Some comments =>
          let typ := receiver_name fn in
          let doc := default ∅ (docs !! typ) in
          <[typ := <[Name fn := comments]> doc]> docs
      end
  end.

(** binding.go, lines 240-273, after [parser.ParseDir]: [parsed] is its
    error, or the packages it found, each with the declarations of its
    files, in the order the loops visit them. *)
Definition DocComments (parsed : Z + list (list (list Decl)))
    : option (gmap string (gmap string (list string))) * error :=
  match parsed with
  | inl e => (None, Some e)
  | inr pkgs =>
      (Some (foldl (λ docs p,
                      foldl (λ docs f, foldl add_decl docs f) docs p)
                   ∅ pkgs),
       None)
  end.

(** The documented functions filed under [typ] with the name [n], in the
    order given. *)
Definition documented (typ n : string) (d : Decl) : option (list string) :=
  match d with
  | FuncD fn =>
      if bool_decide (receiver_name fn = typ ∧ Name fn = n)
      then Doc fn else None
  | GenD => None
  end.

(** [docs[typ][n]]. *)
Definition doc_of (docs : gmap string (gmap string (list string)))
    (typ n : string) : option (list string) :=
  docs !! typ ≫= (.!! n).

(** The declarations of all files of all packages, in the order the loops
    visit them. *)
Definition all_decls (pkgs : list (list (list Decl))) : list Decl :=
  concat (concat pkgs).

(** ** Ctx: the error accessor, and the executors a program can hold *)

(** ctx.go, line 84. *)
Definition Error (ctx : Ctx) : error := err ctx.

(** The executors a program obtains from the package: what a constructor
    returned, and the receiver after a completed [Close]. *)
Inductive obtained (cuCtxCreate : Z → Z → error * Z)
    (cuCtxDestroy : Z → error) : Ctx → Prop :=
| obtained_manual d fl m ctx m' :
    NewManuallyManagedContext cuCtxCreate d fl m = Ok ctx m' →
    obtained cuCtxCreate cuCtxDestroy ctx
| obtained_wrapped d cuctx fl m ctx m' :
    CtxFromCUContext d cuctx fl m = Ok ctx m' →
    obtained cuCtxCreate cuCtxDestroy ctx
| obtained_new d fl m ctx c m' :
    NewContext cuCtxCreate d fl m = Ok (ctx, c) m' →
    obtained cuCtxCreate cuCtxDestroy ctx
| obtained_closed ctx m ctx' e m' :
    obtained cuCtxCreate cuCtxDestroy ctx →
    Close cuCtxDestroy ctx m = Ok (ctx', e) m' →
    obtained cuCtxCreate cuCtxDestroy ctx'.

(** ** Fixtures of the generator and of the accessors *)

(** A driver that fails to destroy a context. *)
Definition destroy_fails (h : Z) : error := Some 301.

(** [serving7] with one goroutine calling [Do(nil)]. *)
Definition do_nil7 : @System (list nat) :=
  mkSystem ctx7 (mkChans 3 [2%nat]) [] (Some (R_select (Some 0%nat) None))
           [D_send (Some 0%nat) None] (Some W_ret).

(** [float *x] and [void *x]. *)
Definition float_ptr : cc.Type_ := cc.Pointer (cc.Base cc.Float 0).
Definition void_ptr : cc.Type_ := cc.Pointer (cc.Base cc.Void 0).

(** A user mapping for [void*] only. *)
Definition void_only : TypeKey → option Template :=
  map_literal [(mkTypeKey cc.Void true, Pure [Lit "unsafe.Pointer"])].

(** A file with a documented method on a pointer receiver, a documented
    method on a value receiver, a documented function and an undocumented
    one. *)
Definition decls4 : list Decl :=
  [ FuncD (mkFuncDecl (Some ["// Close destroys the context"])
                      (Some [StarExpr (Ident "Ctx")]) "Close");
    FuncD (mkFuncDecl (Some ["// String formats the device"])
                      (Some [Ident "Device"]) "String");
    GenD;
    FuncD (mkFuncDecl (Some ["// Version is the driver version"]) None
                      "Version");
    FuncD (mkFuncDecl None None "init") ].

(** A file whose methods all have pointer receivers. *)
Definition decls_ptr : list Decl :=
  [ FuncD (mkFuncDecl (Some ["// Close destroys the context"])
                      (Some [StarExpr (Ident "Ctx")]) "Close");
    FuncD (mkFuncDecl (Some ["// Close frees the memory"])
                      (Some [StarExpr (Ident "Mem")]) "Close") ].

(** * Theorems *)

(** * Properties of the sequential code *)

Section SequentialFacts.

Variable cuCtxCreate : Z → Z → error * Z.
Variable cuCtxDestroy : Z → error.

Lemma bind_inv_Ok {A B} (c : M A) (f : A → M B) m b m2 :
  (c ≫= f) m = Ok b m2 → ∃ a m1, c m = Ok a m1 ∧ f a m1 = Ok b m2.
Proof.
  unfold mbind, M_bind. destruct (c m) as [a m1|p m1]; [eauto | discriminate].
Qed.

Lemma is_closed_false h c : is_closed h c = false ↔ c ∉ closedChans h.
Proof. unfold is_closed. apply bool_decide_eq_false. Qed.

(** What [newContext] builds: two fresh, distinct, open channels and no
    [done] channel. *)
Lemma newContext_spec c m :
  newContext c m =
    Ok (mkCtx c (Some (nextChan (chans m))) (Some (S (nextChan (chans m))))
              None None false 0 0 false false)
       (mkMach (mkChans (S (S (nextChan (chans m)))) (closedChans (chans m)))
               (effects m ++ [EMake (nextChan (chans m));
                              EMake (S (nextChan (chans m))); ESetFinalizer])).
Proof.
  unfold newContext, mbind, M_bind, make_chan, emit, mret, M_ret; simpl.
  by rewrite <- !app_assoc.
Qed.

(** A completed [Close] leaves the handle empty. *)
Lemma Close_handle_empty ctx m ctx1 e1 m1 :
  Close cuCtxDestroy ctx m = Ok (ctx1, e1) m1 → CUContext ctx1 = 0.
Proof.
  unfold Close. case_bool_decide as Hh.
  - intros [= <- <- <-]. done.
  - intros H.
    apply bind_inv_Ok in H as (c1 & ma & _ & H).
    apply bind_inv_Ok in H as (c2 & mb & _ & H).
    apply bind_inv_Ok in H as ([] & mc & _ & H).
    apply bind_inv_Ok in H as ([] & md & _ & H).
    by injection H as <- <- <-.
Qed.

(** [Close] on an empty handle does nothing at all. *)
Lemma Close_empty ctx m :
  CUContext ctx = 0 → Close cuCtxDestroy ctx m = Ok (ctx, None) m.
Proof. intros H. unfold Close. by rewrite bool_decide_eq_true_2. Qed.

Lemma destroys_app l1 l2 : destroys (l1 ++ l2) = (destroys l1 + destroys l2)%nat.
Proof. unfold destroys. by rewrite filter_app, length_app. Qed.

(** [Close] on a live handle whose two channels are open: the effects it
    performs, in order, and the state it leaves. *)
Lemma Close_live ctx m cw ce :
  CUContext ctx ≠ 0 →
  work ctx = Some cw → errChan ctx = Some ce → cw ≠ ce →
  is_closed (chans m) cw = false → is_closed (chans m) ce = false →
  Close cuCtxDestroy ctx m =
    Ok (clear_handle (clear_work (clear_errChan ctx)),
        cuCtxDestroy (CUContext ctx))
       (mkMach (mkChans (nextChan (chans m)) (cw :: ce :: closedChans (chans m)))
               (effects m ++ [ECloseChan ce; EClear FErrChan; ECloseChan cw;
                              EClear FWork; EDestroy (CUContext ctx);
                              EClear FHandle])).
Proof.
  intros Hh Hw He Hne Hcw Hce. unfold Close.
  rewrite bool_decide_eq_false_2 by done. rewrite He.
  unfold mbind, M_bind, close_chan, emit, mret, M_ret; simpl.
  rewrite Hce; simpl. rewrite Hw; simpl.
  assert (is_closed {| nextChan := nextChan (chans m);
                       closedChans := ce :: closedChans (chans m) |} cw = false)
    as ->.
  { apply is_closed_false; simpl. apply is_closed_false in Hcw.
    rewrite elem_of_cons. intros [?|?]; [by apply Hne | done]. }
  simpl. by rewrite <- !app_assoc.
Qed.

(** [Close] on a live handle, whatever the state of the channels: if it
    completes, both channel fields are nil, the handle is empty, the
    [done] fields are as before, and the driver was asked to destroy the
    context exactly once. *)
Lemma Close_Ok_inv ctx m ctx1 e1 m1 :
  CUContext ctx ≠ 0 →
  Close cuCtxDestroy ctx m = Ok (ctx1, e1) m1 →
  work ctx1 = None ∧ errChan ctx1 = None ∧ CUContext ctx1 = 0 ∧
  done ctx1 = done ctx ∧ doneClosed ctx1 = doneClosed ctx ∧
  e1 = cuCtxDestroy (CUContext ctx) ∧
  destroys (effects m1) = S (destroys (effects m)).
Proof.
  intros Hh. unfold Close. rewrite bool_decide_eq_false_2 by done.
  unfold mbind, M_bind, close_chan, emit, mret, M_ret.
  destruct (errChan ctx) as [ce|] eqn:He, (work ctx) as [cw|] eqn:Hw; simpl;
    repeat (rewrite ?He, ?Hw; simpl;
            try match goal with
                | |- context [is_closed ?h ?c] => destruct (is_closed h c)
                end; simpl);
    try discriminate;
    intros [= <- <- <-]; simpl;
    rewrite ?He, ?Hw, ?destroys_app; simpl;
    repeat split; try done; unfold destroys; simpl; lia.
Qed.

(** A completed [Close] on a live handle has closed the task channel it
    found. *)
Lemma Close_closes_work ctx m ctx1 e1 m1 cw :
  CUContext ctx ≠ 0 → work ctx = Some cw →
  Close cuCtxDestroy ctx m = Ok (ctx1, e1) m1 →
  is_closed (chans m1) cw = true.
Proof.
  intros Hh Hw H. unfold is_closed. apply bool_decide_eq_true. revert H.
  unfold Close. rewrite bool_decide_eq_false_2 by done.
  unfold mbind, M_bind, close_chan, emit, mret, M_ret.
  destruct (errChan ctx) as [ce|] eqn:He; simpl;
    repeat (rewrite ?He, ?Hw; simpl;
            try match goal with
                | |- context [is_closed ?h ?c] => destruct (is_closed h c)
                end; simpl);
    try discriminate;
    intros [= <- <- <-]; simpl; left.
Qed.

End SequentialFacts.

Example manual_ctx7 : NewManuallyManagedContext create_ok 0 0 m0 = Ok ctx7 m7.
Proof. reflexivity. Qed.

(** * Close *)

Section CloseFacts.

Variable cuCtxDestroy : Z → error.

(** C5.  Closing an executor that a completed [Close] left behind returns
    nil and changes nothing: neither the executor nor the machine, whose
    effect log would record a native destroy call.  Over both calls the
    driver is asked to destroy the context at most once. *)
Theorem Close_idempotent (ctx ctx1 : Ctx) (m m1 : Mach) (e1 : error) :
  Close cuCtxDestroy ctx m = Ok (ctx1, e1) m1 →
  Close cuCtxDestroy ctx1 m1 = Ok (ctx1, None) m1 ∧
  (destroys (effects m1) ≤ S (destroys (effects m)))%nat.
Proof.
  intros H. split.
  - apply Close_empty. by eapply Close_handle_empty.
  - destruct (decide (CUContext ctx = 0)) as [H0|Hlive].
    + rewrite Close_empty in H by done. injection H as <- <- <-. lia.
    + apply Close_Ok_inv in H as (_ & _ & _ & _ & _ & _ & ->); done.
Qed.

End CloseFacts.

Lemma Close_idempotent_witness :
  Close destroy_ok ctx7_closed m7_closed = Ok (ctx7_closed, None) m7_closed ∧
  (destroys (effects m7_closed) ≤ S (destroys (effects m7)))%nat.
Proof.
  apply (Close_idempotent destroy_ok ctx7 ctx7_closed m7 m7_closed None).
  reflexivity.
Defined.

(** * Goroutines: frame lemmas *)

Section GoroutineFacts.

Context {W : Type}.
Variable SetCurrentContext : Z → error.

Implicit Types (s : @System W) (c : choice) (evs : list (@event W)).

Lemma execute_cons s c sched evs s' :
  execute SetCurrentContext s (c :: sched) = Some (evs, s') ↔
  ∃ ev1 s1 evs2,
    step SetCurrentContext s c = Some (ev1, s1) ∧
    execute SetCurrentContext s1 sched = Some (evs2, s') ∧ evs = ev1 ++ evs2.
Proof.
  simpl. split.
  - destruct (step SetCurrentContext s c) as [[ev1 s1]|]; [|done].
    destruct (execute SetCurrentContext s1 sched) as [[evs2 s2]|] eqn:Hr;
      [|done].
    intros [= <- <-]. by exists ev1, s1, evs2.
  - intros (ev1 & s1 & evs2 & -> & -> & ->). done.
Qed.

Lemma execute_app s sched1 sched2 evs1 s1 evs2 s2 :
  execute SetCurrentContext s sched1 = Some (evs1, s1) →
  execute SetCurrentContext s1 sched2 = Some (evs2, s2) →
  execute SetCurrentContext s (sched1 ++ sched2) = Some (evs1 ++ evs2, s2).
Proof.
  revert s evs1. induction sched1 as [|c sched1 IH]; intros s evs1 H1 H2.
  - injection H1 as <- <-. done.
  - apply execute_cons in H1 as (ev1 & sa & evsa & Hs & Hr & ->).
    rewrite <- app_comm_cons. apply execute_cons.
    exists ev1, sa, (evsa ++ evs2). rewrite app_assoc. eauto.
Qed.

(** A property of states kept by every step holds along every execution. *)
Lemma execute_invariant (P : System → Prop) :
  (∀ s c evs s',
     P s → step SetCurrentContext s c = Some (evs, s') → P s') →
  ∀ sched s evs s',
    P s → execute SetCurrentContext s sched = Some (evs, s') → P s'.
Proof.
  intros Hstep. induction sched as [|c sched IH]; intros s evs s' HP Hrun.
  - by injection Hrun as <- <-.
  - apply execute_cons in Hrun as (ev1 & s1 & evs2 & Hs & Hr & ->). eauto.
Qed.

Lemma Run_step_frame s evs s' :
  Run_step SetCurrentContext s = Some (evs, s') →
  exec s' = exec s ∧ callers s' = callers s ∧ waiter s' = waiter s.
Proof.
  unfold Run_step. intros H. repeat case_match; simplify_eq; done.
Qed.

(** No step writes a field of the executor. *)
Lemma step_exec s c evs s' :
  step SetCurrentContext s c = Some (evs, s') → exec s' = exec s.
Proof.
  unfold step. destruct (crashed s); [done|]. destruct c.
  - intros H. by apply Run_step_frame in H as (? & _).
  - unfold Run_break. intros H. repeat case_match; simplify_eq; done.
  - unfold submit. intros H. repeat case_match; simplify_eq; done.
  - unfold push, err_offer. intros H. repeat case_match; simplify_eq; done.
  - unfold report, err_offer. intros H. repeat case_match; simplify_eq; done.
  - unfold Do_step. intros H. repeat case_match; simplify_eq; done.
  - unfold wait_step. intros H. repeat case_match; simplify_eq; done.
Qed.



End GoroutineFacts.

(** * Do on a closed executor *)

Section DoAfterClose.

Context {W : Type}.
Variable SetCurrentContext : Z → error.
Variable cuCtxDestroy : Z → error.


End DoAfterClose.



(** * What Close does to a serving run loop *)

(** C4, on the code.  [Close] closes the result channel, then the task
    channel, then asks the driver to destroy the context, then empties the
    handle; nothing in between closes [done] or sets [doneClosed], so the
    run loop is never told to stop.  A loop parked in its select cannot take
    the [done] branch; it wakes on the closed task channel with the nil
    func and panics calling it. *)
Example Close_never_signals_done :
  Close destroy_ok ctx7 m7 = Ok (ctx7_closed, None) m7_closed ∧
  effects m7_closed =
    effects m7 ++ [ECloseChan 1; EClear FErrChan; ECloseChan 0; EClear FWork;
                   EDestroy 7; EClear FHandle] ∧
  done ctx7_closed = None ∧ doneClosed ctx7_closed = false ∧
  ∃ s1, close_now destroy_ok serving7 = Some (None, s1) ∧
        step setcur_ok s1 RunBreak = None ∧
        execute setcur_ok s1 [RunLocal; RunLocal]
          = Some ([], set_runloop s1 (R_panic NilFuncCall)).
Proof.
  repeat split. eexists. repeat split.
Qed.

Section CloseWhileServing.

Context {W : Type}.
Variable SetCurrentContext : Z → error.
Variable cuCtxDestroy : Z → error.

(** [Close] on a live executor whose run loop is parked in its select:
    the loop wakes on the closed task channel, receives the nil func, and
    panics calling it. *)
Theorem Close_crashes_parked_loop (s s1 : @System W) (cw : chan)
    (cd : option chan) (e : error) :
  runloop s = Some (R_select (Some cw) cd) →
  work (exec s) = Some cw →
  CUContext (exec s) ≠ 0 →
  crashed s = false →
  close_now cuCtxDestroy s = Some (e, s1) →
  execute SetCurrentContext s1 [RunLocal; RunLocal]
    = Some ([], set_runloop s1 (R_panic NilFuncCall)) ∧
  crashed (set_runloop s1 (R_panic NilFuncCall)) = true.
Proof.
  intros Hpc Hw Hlive Hok Hclose. unfold close_now in Hclose.
  destruct (Close cuCtxDestroy (exec s) (mkMach (heap s) []))
    as [[ctx1 e1] m1|] eqn:HC; [|done].
  injection Hclose as <- <-.
  apply Close_closes_work with (cw := cw) in HC; [|done..].
  unfold crashed in Hok. rewrite Hpc in Hok. simpl in Hok.
  split; [|done].
  set (s1 := mkSystem ctx1 (chans m1) (world s) (runloop s) (callers s)
                      (waiter s)).
  assert (step SetCurrentContext s1 RunLocal
          = Some ([], set_runloop s1 (R_call None))) as H1.
  { unfold step, crashed. simpl. rewrite Hpc. simpl. rewrite Hok.
    unfold Run_step. simpl. by rewrite Hpc, HC. }
  assert (step SetCurrentContext (set_runloop s1 (R_call None)) RunLocal
          = Some ([], set_runloop s1 (R_panic NilFuncCall))) as H2.
  { unfold step, crashed. simpl. by rewrite Hok. }
  simpl. by rewrite H1, H2.
Qed.

End CloseWhileServing.

Lemma Close_crashes_parked_loop_witness :
  execute setcur_ok
    (mkSystem ctx7_closed (mkChans 3 [0; 1; 2]%nat) ([] : list nat)
              (Some (R_select (Some 0%nat) None)) [] (Some W_ret))
    [RunLocal; RunLocal]
  = Some ([], set_runloop
                (mkSystem ctx7_closed (mkChans 3 [0; 1; 2]%nat) []
                          (Some (R_select (Some 0%nat) None)) [] (Some W_ret))
                (R_panic NilFuncCall)) ∧
  crashed (set_runloop
             (mkSystem ctx7_closed (mkChans 3 [0; 1; 2]%nat) ([] : list nat)
                       (Some (R_select (Some 0%nat) None)) [] (Some W_ret))
             (R_panic NilFuncCall)) = true.
Proof.
  apply (Close_crashes_parked_loop setcur_ok destroy_ok serving7 _ 0%nat
           None None); [reflexivity | reflexivity | discriminate
                       | reflexivity | reflexivity ].
Defined.

(** [serving7] is where the program stands once [NewContext(0, 0)] has
    returned. *)
Example auto_start_serving7 :
  ∃ s0, auto_start create_ok 0 0 m0 [] [] = Some s0 ∧
        execute setcur_ok s0 [RunLocal; RunLocal; WaitLocal] = Some ([], serving7).
Proof. eexists. split; reflexivity. Qed.

(** * Constructors *)

Section ConstructorFacts.

Context {W : Type}.
Variable cuCtxCreate : Z → Z → error * Z.
Variable cuCtxDestroy : Z → error.

(** C8, as the code has it.  When the driver rejects the device/flag
    combination, [NewContext] panics with the driver's error.  It does so
    before it allocates a channel and before its go statement: the machine
    it leaves differs only by the create call, no run loop was spawned. *)
Theorem NewContext_create_rejected (d fl : Z) (m : Mach) (e h : Z) :
  cuCtxCreate fl d = (Some e, h) →
  NewContext cuCtxCreate d fl m
    = Panicked (PanicErr e) (mkMach (chans m) (effects m ++ [ECreate fl d])) ∧
  filter is_go (effects m ++ [ECreate fl d]) = filter is_go (effects m) ∧
  ∀ (w0 : W) fns, auto_start cuCtxCreate d fl m w0 fns = None.
Proof.
  intros Hc.
  assert (NewContext cuCtxCreate d fl m
          = Panicked (PanicErr e) (mkMach (chans m) (effects m ++ [ECreate fl d])))
    as Hp.
  { unfold NewContext, mbind, M_bind, emit; simpl. by rewrite Hc. }
  split; [done|]. split.
  - rewrite filter_app. simpl. by rewrite app_nil_r.
  - intros w0 fns. unfold auto_start. by rewrite Hp.
Qed.

(** The constructors that do not spawn: the executor they return has two
    open channels, distinct and fresh, and no [done] channel. *)
Lemma manual_constructors_fresh (d fl cuctx : Z) (m : Mach) ctx m' :
  heap_wf (chans m) →
  NewManuallyManagedContext cuCtxCreate d fl m = Ok ctx m' ∨
  CtxFromCUContext d cuctx fl m = Ok ctx m' →
  work ctx = Some (nextChan (chans m)) ∧
  errChan ctx = Some (S (nextChan (chans m))) ∧
  done ctx = None ∧
  closedChans (chans m') = closedChans (chans m) ∧
  nextChan (chans m') = S (S (nextChan (chans m))).
Proof.
  intros Hwf [H|H].
  - unfold NewManuallyManagedContext in H.
    apply bind_inv_Ok in H as ([] & m1 & Hm1 & H).
    destruct (cuCtxCreate fl d) as [[e|] cctx]; [done|].
    apply bind_inv_Ok in H as (c1 & m2 & Hnew & H).
    rewrite newContext_spec in Hnew. injection Hnew as <- <-.
    injection H as <- <-. injection Hm1 as <-. done.
  - unfold CtxFromCUContext in H.
    apply bind_inv_Ok in H as (c1 & m2 & Hnew & H).
    rewrite newContext_spec in Hnew. injection Hnew as <- <-.
    injection H as <- <-. done.
Qed.

Lemma NewContext_fresh (d fl : Z) (m : Mach) ctx c m' :
  NewContext cuCtxCreate d fl m = Ok (ctx, c) m' →
  work ctx = Some (nextChan (chans m)) ∧
  errChan ctx = Some (S (nextChan (chans m))) ∧
  done ctx = None ∧
  c = S (S (nextChan (chans m))) ∧
  closedChans (chans m') = closedChans (chans m).
Proof.
  intros H. unfold NewContext in H.
  apply bind_inv_Ok in H as ([] & m1 & Hm1 & H).
  destruct (cuCtxCreate fl d) as [[e|] cctx]; [done|].
  apply bind_inv_Ok in H as (c1 & m2 & Hnew & H).
  rewrite newContext_spec in Hnew. injection Hnew as <- <-.
  injection Hm1 as <-.
  unfold mbind, M_bind, make_chan, emit, mret, M_ret in H; simpl in H.
  injection H as <- <- <-. done.
Qed.


End ConstructorFacts.

Lemma NewContext_create_rejected_witness :
  NewContext create_rejects 0 0 m0
    = Panicked (PanicErr 101) (mkMach (chans m0) (effects m0 ++ [ECreate 0 0])) ∧
  filter is_go (effects m0 ++ [ECreate 0 0]) = filter is_go (effects m0) ∧
  ∀ (w0 : list nat) fns, auto_start create_rejects 0 0 m0 w0 fns = None.
Proof.
  apply (NewContext_create_rejected create_rejects 0 0 m0 101 0). reflexivity.
Defined.

(** C8, as stated, fails: on a rejecting driver [NewContext] hands no
    value, error or otherwise, back to its caller; it panics. *)
Lemma NewContext_rejected_does_not_return :
  NewContext create_rejects 0 0 m0
    = Panicked (PanicErr 101) (mkMach (mkChans 0 []) [ECreate 0 0]) ∧
  ¬ ∃ r m', NewContext create_rejects 0 0 m0 = Ok r m'.
Proof. split; [reflexivity|]. intros (r & m' & H). discriminate. Qed.

Lemma heap_wf_m0 : heap_wf (chans m0).
Proof. intros c Hc. simpl in Hc. by apply elem_of_nil in Hc. Qed.


(** * Run: activation *)

Section RunActivation.

Context {W : Type}.
Variable SetCurrentContext : Z → error.

Implicit Types (s : @System W).

(** Where [Run(c)] can be once making the context current failed with
    [e]. *)
Lemma activation_failure_step (ctx : Ctx) (c : option chan) (e : Z) s ch evs s' :
  SetCurrentContext (CUContext ctx) = Some e →
  exec s = ctx ∧
  (runloop s = Some (R_start c) ∨
   (∃ cc, c = Some cc ∧
          (runloop s = Some (R_report cc (Some e)) ∨
           runloop s = Some (R_ret None) ∨
           runloop s = Some (R_panic SendClosedChan))) ∨
   (c = None ∧ runloop s = Some (R_ret (Some e)))) →
  step SetCurrentContext s ch = Some (evs, s') →
  exec s' = ctx ∧
  (runloop s' = Some (R_start c) ∨
   (∃ cc, c = Some cc ∧
          (runloop s' = Some (R_report cc (Some e)) ∨
           runloop s' = Some (R_ret None) ∨
           runloop s' = Some (R_panic SendClosedChan))) ∨
   (c = None ∧ runloop s' = Some (R_ret (Some e)))).
Proof.
  intros Hact [Hctx Hpc] Hstep. split.
  { apply step_exec in Hstep. congruence. }
  subst ctx.
  destruct Hpc as [Hpc|[(cc & -> & [Hpc|[Hpc|Hpc]])|[-> Hpc]]];
    step_inv Hstep; simpl; naive_solver.
Qed.

(** The failing [Run(cc)] hands its error to the receiver waiting on
    [cc], here the constructor, which panics with it. *)
Lemma failed_Run_reports s (cc : chan) (e : Z) :
  runloop s = Some (R_start (Some cc)) →
  SetCurrentContext (CUContext (exec s)) = Some e →
  crashed s = false →
  waiter s = Some (W_recv cc) → is_closed (heap s) cc = false →
  execute SetCurrentContext s [RunLocal; Report]
  = Some ([], set_runloop (set_waiter s (W_panic (PanicErr e))) (R_ret None)).
Proof.
  intros Hpc Hact Hok Hw Hcc. simpl.
  unfold step at 1. rewrite Hok. unfold Run_step. rewrite Hpc, Hact.
  unfold step, crashed in *. simpl. rewrite Hpc in Hok.
  simpl in Hok. rewrite Hok. unfold report, err_offer; simpl.
  rewrite Hw, Hcc. by rewrite bool_decide_eq_true_2.
Qed.

(** C7.  When making the context current fails with [e], [Run(c)] never
    enters its serving loop, under any schedule.  With no completion
    channel it returns [e]; with a completion channel it parks sending [e]
    on it, the receiver waiting there receives exactly [e], and [Run] then
    returns nil. *)
Theorem Run_activation_failure s (c : option chan) (e : Z) :
  runloop s = Some (R_start c) →
  SetCurrentContext (CUContext (exec s)) = Some e →
  crashed s = false →
  (∀ sched evs s',
     execute SetCurrentContext s sched = Some (evs, s') →
     serving (runloop s') = false ∧
     ∀ r, runloop s' = Some (R_ret r) →
          r = match c with None => Some e | Some _ => None end) ∧
  (c = None →
   execute SetCurrentContext s [RunLocal]
   = Some ([], set_runloop s (R_ret (Some e)))) ∧
  (∀ cc, c = Some cc →
     execute SetCurrentContext s [RunLocal]
     = Some ([], set_runloop s (R_report cc (Some e))) ∧
     (waiter s = Some (W_recv cc) → is_closed (heap s) cc = false →
      execute SetCurrentContext s [RunLocal; Report]
      = Some ([], set_runloop (set_waiter s (W_panic (PanicErr e)))
                              (R_ret None)))).
Proof.
  intros Hpc Hact Hok. split; [|split].
  - intros sched evs s' Hrun.
    pose proof (execute_invariant SetCurrentContext _
                  (λ s1 ch evs1 s2, activation_failure_step (exec s) c e
                                      s1 ch evs1 s2 Hact)
                  sched s evs s' (conj eq_refl (or_introl Hpc)) Hrun)
      as [_ Hs'].
    destruct Hs' as [-> | [(cc & -> & [-> | [-> | ->]]) | [-> ->]]];
      (split; [done|intros r [= <-]; done]).
  - intros ->. simpl. unfold step. rewrite Hok. unfold Run_step.
    by rewrite Hpc, Hact.
  - intros cc ->. split.
    + simpl. unfold step. rewrite Hok. unfold Run_step. by rewrite Hpc, Hact.
    + intros Hw Hcc. by apply (failed_Run_reports s cc e).
Qed.

(** While a failing [Run(cc)] has not handed its error over, nothing
    closes [cc] and no caller of [Do] gets to its receive: only the
    constructor waiting on [cc] can take the error, and it cannot
    return. *)
Lemma failed_Run_waiter_step (cc : chan) (e : Z) s ch evs s' :
  SetCurrentContext (CUContext (exec s)) = Some e ∧
  is_closed (heap s) cc = false ∧
  (∀ i c, callers s !! i ≠ Some (D_recv c)) ∧
  ((waiter s = Some (W_recv cc) ∧
    (runloop s = Some (R_start (Some cc)) ∨
     runloop s = Some (R_report cc (Some e)))) ∨
   (waiter s = Some (W_panic (PanicErr e)) ∧
    runloop s = Some (R_ret None))) →
  step SetCurrentContext s ch = Some (evs, s') →
  SetCurrentContext (CUContext (exec s')) = Some e ∧
  is_closed (heap s') cc = false ∧
  (∀ i c, callers s' !! i ≠ Some (D_recv c)) ∧
  ((waiter s' = Some (W_recv cc) ∧
    (runloop s' = Some (R_start (Some cc)) ∨
     runloop s' = Some (R_report cc (Some e)))) ∨
   (waiter s' = Some (W_panic (PanicErr e)) ∧
    runloop s' = Some (R_ret None))).
Proof.
  intros (Hact & Hcc & Hnr & Hpc) Hstep.
  assert (∀ i d, (∀ c, d ≠ D_recv c) →
                 ∀ j c, <[i:=d]> (callers s) !! j ≠ Some (@D_recv W c))
    as Hins.
  { intros i d Hd j c Hj. apply list_lookup_insert_Some in Hj
      as [(_ & Hd' & _)|[_ Hj]]; [by eapply Hd|by eapply Hnr]. }
  destruct Hpc as [[Hw [Hpc|Hpc]]|[Hw Hpc]];
    step_inv Hstep; simpl in *; simplify_eq; try congruence;
    try (by exfalso; eapply Hnr);
    split_and!; try done; eauto.
Qed.

End RunActivation.

(** * One function at a time *)

Section SerialFacts.

Context {W : Type}.
Implicit Types (w : W) (q : list (nat * @closure W)) (f : @closure W).

Lemma serial_snoc w q i f :
  serial w (q ++ [(i, f)])
  = ((serial w q).1 ++ block i f (f (serial w q).2).2, (f (serial w q).2).1).
Proof.
  revert w. induction q as [|[j g] q IH]; intros w; simpl.
  - done.
  - rewrite IH. simpl. done.
Qed.

Lemma result_of_snoc w q i f j :
  result_of w (q ++ [(i, f)]) j
  = match result_of w q j with
    | Some e => Some e
    | None => if decide (j = i) then Some (f (serial w q).2).2 else None
    end.
Proof.
  revert w. induction q as [|[k g] q IH]; intros w; simpl.
  - done.
  - destruct (decide (j = k)); [done|]. apply IH.
Qed.

Lemma result_of_None w q i : result_of w q i = None ↔ i ∉ q.*1.
Proof.
  revert w. induction q as [|[k g] q IH]; intros w; simpl.
  - split; [intros _; apply not_elem_of_nil | done].
  - rewrite not_elem_of_cons. destruct (decide (i = k)) as [->|Hne].
    + split; [done | intros [? _]; done].
    + rewrite IH. split; [by intros ?; split | by intros [_ ?]].
Qed.

(** The result recorded for a caller is the error its closure returned on
    the state left by the tasks served before it. *)
Lemma result_of_Some w q i e :
  result_of w q i = Some e →
  ∃ q1 f q2, q = q1 ++ (i, f) :: q2 ∧ e = (f (serial w q1).2).2.
Proof.
  revert w. induction q as [|[k g] q IH]; intros w; simpl; [done|].
  destruct (decide (i = k)) as [->|Hne].
  - intros [= <-]. by exists [], g, q.
  - intros H. apply IH in H as (q1 & f & q2 & -> & ->).
    by exists ((k, g) :: q1), f, q2.
Qed.

Lemma serial_app w q1 q2 :
  serial w (q1 ++ q2)
  = ((serial w q1).1 ++ (serial (serial w q1).2 q2).1,
     (serial (serial w q1).2 q2).2).
Proof.
  revert w. induction q1 as [|[j g] q1 IH]; intros w; simpl.
  - by destruct (serial w q2).
  - rewrite IH. simpl. done.
Qed.

(** In the service of a queue, at every point at most one closure has
    been entered and not left. *)
Lemma serial_one_at_a_time w q (pre rest : list (@event W)) :
  (serial w q).1 = pre ++ rest →
  (ends pre ≤ begins pre ≤ S (ends pre))%nat.
Proof.
  revert w pre. induction q as [|[j g] q IH]; intros w pre Hs; simpl in Hs.
  - symmetry in Hs. apply app_eq_nil in Hs as [-> _]. simpl. lia.
  - destruct pre as [|a [|b [|c [|d pre]]]]; simpl in Hs; simplify_eq;
      try (simpl; lia).
    match goal with H : (serial _ _).1 = _ |- _ => apply IH in H as Hpre end.
    simpl. lia.
Qed.

Lemma arrivals_app (l1 l2 : list (@event W)) :
  arrivals (l1 ++ l2) = arrivals l1 ++ arrivals l2.
Proof.
  induction l1 as [|[i [g|]| | |] l1 IH]; simpl; by rewrite ?IH.
Qed.

Lemma arrivals_serial w q : arrivals (serial w q).1 = q.
Proof.
  revert w. induction q as [|[j g] q IH]; intros w; simpl; by rewrite ?IH.
Qed.

End SerialFacts.

Section Serialization.

Context {W : Type}.
Variable SetCurrentContext : Z → error.
Variables (ctx : Ctx) (cw ce cc : chan) (w0 : W) (fns : list (@closure W)).

Hypothesis Hwork : work ctx = Some cw.
Hypothesis HerrChan : errChan ctx = Some ce.
Hypothesis Hdone : done ctx = None.
Hypothesis Hcw : cc ≠ cw.
Hypothesis Hce : cc ≠ ce.
Hypothesis Hactivate : SetCurrentContext (CUContext ctx) = None.

Implicit Types (s : @System W) (evs : list (@event W))
  (q : list (nat * @closure W)) (f : @closure W).

(** The three channels are open in heap [h]. *)
Local Abbreviation exec_fresh h :=
  (is_closed h cw = false ∧ is_closed h ce = false ∧ is_closed h cc = false).

Local Abbreviation inv := (Inv ctx cw ce cc w0 fns).
Local Abbreviation idle := (idle_status cw w0).
Local Abbreviation busy := (busy_status cw ce w0).
Local Abbreviation are := (callers_are fns).

(** The run loop receives the closure of caller [i]. *)
Lemma callers_are_submit s q i fn :
  are s (idle q) →
  callers s !! i = Some (D_send (Some cw) fn) →
  ∃ f, fns !! i = Some f ∧ fn = Some f ∧ result_of w0 q i = None ∧
       are (set_caller s i (D_recv (Some ce))) (busy q i).
Proof.
  intros Hare Hi. pose proof (Hare i) as Hi'. rewrite Hi in Hi'.
  destruct (fns !! i) as [f|] eqn:Hf; [|done]. simpl in Hi'.
  unfold idle_status in Hi'.
  destruct (result_of w0 q i) eqn:Hr; [done|]. injection Hi' as ->.
  exists f. repeat split; [done..|].
  intros j. simpl. unfold busy_status.
  destruct (decide (j = i)) as [->|Hne].
  - rewrite list_lookup_insert_eq by (by eapply lookup_lt_Some).
    by rewrite Hf.
  - rewrite list_lookup_insert_ne by done. by rewrite Hare.
Qed.

(** The run loop hands the result to the caller whose task it holds. *)
Lemma callers_are_push s q i0 f i c :
  are s (busy q i0) →
  fns !! i0 = Some f → result_of w0 q i0 = None →
  callers s !! i = Some (D_recv c) →
  i = i0 ∧
  are (set_caller s i (D_ret (f (serial w0 q).2).2)) (idle (q ++ [(i0, f)])).
Proof.
  intros Hare Hf Hr Hi. pose proof (Hare i) as Hi'. rewrite Hi in Hi'.
  destruct (fns !! i) as [g|] eqn:Hg; [|done]. simpl in Hi'.
  unfold busy_status, idle_status in Hi'.
  destruct (decide (i = i0)) as [->|Hne];
    [|destruct (result_of w0 q i); done].
  split; [done|]. intros j. simpl. unfold idle_status.
  rewrite result_of_snoc.
  destruct (decide (j = i0)) as [->|Hne].
  - rewrite list_lookup_insert_eq by (by eapply lookup_lt_Some).
    rewrite Hf, Hr. simpl. done.
  - rewrite list_lookup_insert_ne by done. rewrite Hare.
    unfold busy_status. destruct (fns !! j); [|done]. simpl.
    rewrite decide_False by done. unfold idle_status.
    by destruct (result_of w0 q j).
Qed.

Lemma callers_not_panicked s st :
  are s st → (∀ i f, do_panicked (st i f) = false) →
  existsb do_panicked (callers s) = false.
Proof.
  intros Hare Hst. apply not_true_iff_false. intros Hex.
  apply existsb_exists in Hex as (d & Hin & Hd).
  apply list_elem_of_In, list_elem_of_lookup in Hin as [i Hi].
  rewrite Hare in Hi. destruct (fns !! i) as [f|]; [|done].
  injection Hi as <-. by rewrite Hst in Hd.
Qed.

Lemma idle_not_panicked q i f : do_panicked (idle q i f) = false.
Proof. unfold idle_status. by destruct (result_of w0 q i). Qed.

Lemma busy_not_panicked q i0 i f : do_panicked (busy q i0 i f) = false.
Proof.
  unfold busy_status. destruct (decide (i = i0)); [done|].
  apply idle_not_panicked.
Qed.

(** Under the invariant nothing has panicked. *)
Lemma Inv_not_crashed s evs q : inv s evs q → crashed s = false.
Proof.
  intros (_ & _ & _ & Hwt & _ & Hl). unfold crashed, loop_inv in *.
  assert (existsb do_panicked (callers s) = false) as ->.
  { destruct (runloop s) as [[]|]; try done;
      [destruct Hl as (_ & _ & _ & _ & _ & Ha)
      |destruct Hl as (_ & _ & _ & _ & _ & Ha)
      |destruct Hl as (_ & _ & _ & _ & Ha)
      |destruct Hl as (? & ? & ? & _ & _ & _ & _ & Ha)
      |destruct Hl as (? & ? & ? & _ & _ & _ & _ & Ha)
      |destruct Hl as (? & ? & ? & _ & _ & _ & _ & _ & Ha)];
      eapply callers_not_panicked; eauto using idle_not_panicked, busy_not_panicked. }
  destruct Hwt as [-> | [-> | ->]]; destruct (runloop s) as [[]|]; done.
Qed.

(** Where a caller can be under the invariant. *)
Lemma Inv_caller s evs q i d :
  inv s evs q → callers s !! i = Some d →
  (∃ f, d = D_send (Some cw) (Some f)) ∨ d = D_recv (Some ce) ∨
  (∃ e, d = D_ret e).
Proof.
  intros (_ & _ & _ & _ & _ & Hl) Hi. unfold loop_inv in Hl.
  assert (∃ st, are s st ∧
                ∀ j f, (∃ g, st j f = D_send (Some cw) (Some g)) ∨
                       st j f = D_recv (Some ce) ∨ (∃ e, st j f = D_ret e))
    as (st & Hare & Hst).
  { assert (∀ q' j f, (∃ g, idle q' j f = D_send (Some cw) (Some g)) ∨
                      idle q' j f = D_recv (Some ce) ∨
                      (∃ e, idle q' j f = D_ret e)) as Hidle.
    { intros q' j f. unfold idle_status.
      destruct (result_of w0 q' j); eauto. }
    assert (∀ q' i0 j f, (∃ g, busy q' i0 j f = D_send (Some cw) (Some g)) ∨
                         busy q' i0 j f = D_recv (Some ce) ∨
                         (∃ e, busy q' i0 j f = D_ret e)) as Hbusy.
    { intros q' i0 j f. unfold busy_status.
      destruct (decide (j = i0)); eauto. }
    destruct (runloop s) as [[]|]; try done.
    - destruct Hl as (_ & _ & _ & _ & _ & Ha). eauto.
    - destruct Hl as (_ & _ & _ & _ & _ & Ha). eauto.
    - destruct Hl as (_ & _ & _ & _ & Ha). eauto.
    - destruct Hl as (? & ? & ? & _ & _ & _ & _ & Ha). eauto.
    - destruct Hl as (? & ? & ? & _ & _ & _ & _ & Ha). eauto.
    - destruct Hl as (? & ? & ? & _ & _ & _ & _ & _ & Ha). eauto. }
  rewrite Hare in Hi. destruct (fns !! i) as [f|]; [|done].
  injection Hi as <-. apply Hst.
Qed.

Lemma queue_ok_snoc q i f :
  queue_ok fns q → fns !! i = Some f → result_of w0 q i = None →
  queue_ok fns (q ++ [(i, f)]).
Proof.
  intros [Hnd Hin] Hf Hr. split.
  - rewrite fmap_app. apply NoDup_app. split; [done|]. split.
    + intros j Hj. simpl. rewrite list_elem_of_singleton. intros ->.
      by apply result_of_None in Hr.
    + simpl. apply NoDup_singleton.
  - intros j g. rewrite elem_of_app, list_elem_of_singleton.
    intros [?|[= -> ->]]; eauto.
Qed.

Lemma queue_ok_last q i f :
  queue_ok fns (q ++ [(i, f)]) →
  fns !! i = Some f ∧ result_of w0 q i = None.
Proof.
  intros [Hnd Hin]. split.
  - apply Hin. rewrite elem_of_app, list_elem_of_singleton. by right.
  - rewrite fmap_app in Hnd. apply NoDup_app in Hnd as (_ & Hd & _).
    apply result_of_None. intros Hi. apply (Hd i Hi). simpl. left.
Qed.

(** Every step keeps the invariant, extending the events by those of
    the step and the queue by the caller served, if any. *)
Lemma Inv_step s evs q c ev s' :
  inv s evs q →
  step SetCurrentContext s c = Some (ev, s') →
  inv s' (evs ++ ev) (queue_after fns q c).
Proof.
  intros HI Hstep. pose proof HI as (Hex & Hcwo & Hceo & Hwt & Hq & Hl).
  unfold step in Hstep. destruct (crashed s); [done|].
  destruct c as [| |i|i| |i|]; simpl.
  - (* the loop on its own *)
    unfold Run_step in Hstep. unfold loop_inv in Hl.
    destruct (runloop s) as [[c0|? ?|c0|a b|w|g|c0 e| |?|?]|] eqn:Hpc;
      try done.
    + destruct Hl as (-> & Hcc & -> & -> & Hw & Ha).
      rewrite Hex, Hactivate in Hstep. injection Hstep as <- <-.
      rewrite app_nil_r. unfold Inv. split_and!; done.
    + destruct Hl as (-> & Hcc & -> & -> & Hw & Ha).
      rewrite Hcc in Hstep. injection Hstep as <- <-.
      unfold enter_select. rewrite Hex, Hwork, Hdone.
      unfold Inv. split_and!; simpl; try done.
      * apply is_closed_false. simpl. apply is_closed_false in Hcwo.
        rewrite elem_of_cons. intros [?|?]; [by apply Hcw | done].
      * apply is_closed_false. simpl. apply is_closed_false in Hceo.
        rewrite elem_of_cons. intros [?|?]; [by apply Hce | done].
    + destruct Hl as (-> & -> & _). by rewrite Hcwo in Hstep.
    + destruct Hl as (q' & i & f & -> & -> & -> & Hw & Ha).
      injection Hstep as <- <-.
      unfold Inv. split_and!; try done. unfold loop_inv; simpl.
      exists q', i, f. rewrite <- app_assoc. done.
    + destruct Hl as (q' & i & f & -> & -> & -> & Hw & Ha).
      injection Hstep as <- <-.
      unfold Inv. split_and!; try done. unfold loop_inv; simpl.
      exists q', i, f. rewrite <- app_assoc, Hex, HerrChan, Hw. done.
    + destruct Hl as (q' & i & f & -> & -> & _). by rewrite Hceo in Hstep.
  - (* the done branch *)
    unfold Run_break in Hstep. unfold loop_inv in Hl.
    destruct (runloop s) as [[]|]; try done.
    destruct Hl as (_ & -> & _). done.
  - (* a rendezvous on the task channel *)
    unfold submit in Hstep. unfold loop_inv in Hl.
    destruct (callers s !! i) as [[[c|] fn| | |]|] eqn:Hi; try done.
    destruct (runloop s) as [[| | |[cw'|] b| | | | | |]|] eqn:Hpc; try done.
    destruct Hl as ([= ->] & -> & -> & Hw & Ha).
    case_bool_decide as Hc; [subst c|done]. rewrite Hcwo in Hstep.
    injection Hstep as <- <-.
    destruct (callers_are_submit _ _ _ _ Ha Hi) as (f & Hf & -> & Hr & Ha').
    rewrite Hf, Hex, HerrChan.
    unfold Inv. split_and!; try done.
    + by apply queue_ok_snoc.
    + unfold loop_inv; simpl. by exists q, i, f.
  - (* a rendezvous on the result channel *)
    unfold push, err_offer in Hstep. unfold loop_inv in Hl.
    destruct (callers s !! i) as [[|[c|]| |]|] eqn:Hi; try done.
    destruct (runloop s) as [[| | | | | |[ch|] e| | |]|] eqn:Hpc; try done.
    destruct Hl as (q' & i0 & f & -> & [= ->] & -> & -> & Hw & Ha).
    case_bool_decide as Hc; [subst c|done]. rewrite Hceo in Hstep.
    injection Hstep as <- <-.
    apply queue_ok_last in Hq as Hlast. destruct Hlast as [Hf Hr].
    destruct (callers_are_push _ _ _ _ _ _ Ha Hf Hr Hi) as (-> & Ha').
    unfold enter_select. rewrite Hex, Hwork, Hdone.
    unfold Inv. split_and!; try done. unfold loop_inv; simpl.
    rewrite serial_snoc; simpl. rewrite <- app_assoc. done.
  - (* the waiting constructor takes a value from the loop *)
    unfold report, err_offer in Hstep. unfold loop_inv in Hl.
    destruct (waiter s) as [[c| |]|] eqn:Hw; try done.
    destruct (runloop s) as [[| | | | | |[ch|] e| | |]|] eqn:Hpc; try done.
    destruct Hl as (q' & i0 & f & -> & [= ->] & _).
    case_bool_decide as Hc; [subst c|done].
    unfold waiter_ok in Hwt. rewrite Hw in Hwt.
    destruct Hwt as [?|[?|?]]; simplify_eq.
  - (* a caller on its own *)
    unfold Do_step in Hstep.
    destruct (callers s !! i) as [d|] eqn:Hi; [|done].
    destruct (Inv_caller _ _ _ _ _ HI Hi) as [[f ->]|[->|[e ->]]];
      [by rewrite Hcwo in Hstep|by rewrite Hceo in Hstep|done].
  - (* the waiting constructor on its own *)
    unfold wait_step in Hstep.
    destruct (waiter s) as [[c| |]|] eqn:Hw; try done.
    destruct (is_closed (heap s) c); [|done]. injection Hstep as <- <-.
    rewrite app_nil_r. unfold Inv. split_and!; try done. by right; right.
Qed.

(** The invariant holds when a goroutine enters [Run(cc)] on a fresh
    executor while the callers are about to send. *)
Lemma Inv_started h wt :
  exec_fresh h →
  wt = None ∨ wt = Some (W_recv cc) →
  inv (started ctx h w0 (Some cc) (Some <$> fns) wt) [] [].
Proof.
  intros (Hocw & Hoce & Hocc) Hwt. unfold Inv. split_and!; simpl; try done.
  - destruct Hwt as [->| ->]; [by left | by right; left].
  - split; [apply NoDup_nil_2 | by intros ? ? ?%elem_of_nil].
  - unfold loop_inv; simpl. split_and!; try done.
    intros i. simpl. rewrite !list_lookup_fmap. unfold Do. rewrite Hwork.
    by destruct (fns !! i).
Qed.

(** The invariant holds along every execution. *)
Lemma Inv_execute sched s evs q ev s' :
  inv s evs q →
  execute SetCurrentContext s sched = Some (ev, s') →
  ∃ q', inv s' (evs ++ ev) q'.
Proof.
  revert s evs q ev. induction sched as [|c sched IH]; intros s evs q ev HI Hrun.
  - injection Hrun as <- <-. rewrite app_nil_r. eauto.
  - apply execute_cons in Hrun as (ev1 & s1 & evs2 & Hs & Hr & ->).
    rewrite app_assoc. eapply IH; [|done]. by eapply Inv_step.
Qed.

(** The events so far are an initial segment of the one-at-a-time
    service of the queue. *)
Lemma Inv_prefix s evs q : inv s evs q → evs `prefix_of` (serial w0 q).1.
Proof.
  intros (_ & _ & _ & _ & _ & Hl). unfold loop_inv in Hl.
  destruct (runloop s) as [[c0|c0 e0|c0|a b|wv|g|c0 e0| |r|p]|]; try done.
  - destruct Hl as (_ & _ & -> & -> & _). by exists [].
  - destruct Hl as (_ & _ & -> & -> & _). by exists [].
  - destruct Hl as (_ & _ & -> & _). exists []. by rewrite app_nil_r.
  - destruct Hl as (q' & i & f & -> & _ & -> & _).
    rewrite serial_snoc; simpl.
    exists [EvBegin f; EvEnd (f (serial w0 q').2).2;
            EvPush i (f (serial w0 q').2).2].
    by rewrite <- app_assoc.
  - destruct Hl as (q' & i & f & -> & _ & -> & _).
    rewrite serial_snoc; simpl.
    exists [EvEnd (f (serial w0 q').2).2; EvPush i (f (serial w0 q').2).2].
    by rewrite <- app_assoc.
  - destruct Hl as (q' & i & f & -> & _ & -> & -> & _).
    rewrite serial_snoc; simpl.
    exists [EvPush i (f (serial w0 q').2).2].
    by rewrite <- app_assoc.
Qed.

(** The queue already served in full, and the status of each caller with
    respect to it. *)
Lemma Inv_served s evs q :
  inv s evs q →
  ∃ qd tl, evs = (serial w0 qd).1 ++ tl ∧ queue_ok fns qd ∧
    ∀ i e, callers s !! i = Some (D_ret e) → result_of w0 qd i = Some e.
Proof.
  intros (_ & _ & _ & _ & Hq & Hl). unfold loop_inv in Hl.
  assert (∀ qd, are s (idle qd) →
            ∀ i e, callers s !! i = Some (D_ret e) →
                   result_of w0 qd i = Some e) as Hidle.
  { intros qd Ha i e Hi. rewrite Ha in Hi.
    destruct (fns !! i); [|done]. simpl in Hi. unfold idle_status in Hi.
    destruct (result_of w0 qd i); [|done]. by injection Hi as ->. }
  assert (∀ qd i0, are s (busy qd i0) →
            ∀ i e, callers s !! i = Some (D_ret e) →
                   result_of w0 qd i = Some e) as Hbusy.
  { intros qd i0 Ha i e Hi. rewrite Ha in Hi.
    destruct (fns !! i); [|done]. simpl in Hi.
    unfold busy_status, idle_status in Hi.
    destruct (decide (i = i0)); [done|].
    destruct (result_of w0 qd i); [|done]. by injection Hi as ->. }
  assert (∀ qd i f, queue_ok fns (qd ++ [(i, f)]) → queue_ok fns qd) as Hqd.
  { intros qd i f [Hnd Hin]. split.
    - rewrite fmap_app in Hnd. by apply NoDup_app in Hnd as (? & _).
    - intros j g Hj. apply Hin, elem_of_app. by left. }
  destruct (runloop s) as [[c0|c0 e0|c0|a b|wv|g|c0 e0| |r|p]|]; try done.
  - destruct Hl as (_ & _ & -> & -> & _ & Ha). exists [], []. eauto.
  - destruct Hl as (_ & _ & -> & -> & _ & Ha). exists [], []. eauto.
  - destruct Hl as (_ & _ & -> & _ & Ha). exists q, [].
    rewrite app_nil_r. eauto.
  - destruct Hl as (q' & i & f & -> & _ & -> & _ & Ha).
    exists q', [EvSubmit i (Some f)]. eauto.
  - destruct Hl as (q' & i & f & -> & _ & -> & _ & Ha).
    exists q', [EvSubmit i (Some f); EvBegin f]. eauto.
  - destruct Hl as (q' & i & f & -> & _ & -> & -> & _ & Ha).
    exists q', [EvSubmit i (Some f); EvBegin f;
                EvEnd (f (serial w0 q').2).2]. eauto.
Qed.

(** What a returned [Do] returned: the error its own closure produced,
    on the state the tasks served before it had left. *)
Lemma Inv_returned s evs q i e :
  inv s evs q → callers s !! i = Some (D_ret e) →
  ∃ f q1 post, fns !! i = Some f ∧
    evs = (serial w0 q1).1 ++ block i f e ++ post ∧
    e = (f (serial w0 q1).2).2.
Proof.
  intros HI Hi. apply Inv_served in HI as (qd & tl & -> & [_ Hin] & Hret).
  apply Hret, result_of_Some in Hi as (q1 & f & q2 & -> & ->).
  exists f, q1, ((serial (f (serial w0 q1).2).1 q2).1 ++ tl). split.
  - apply Hin, elem_of_app. right. left.
  - split; [|done]. rewrite serial_app. simpl. by rewrite <- !app_assoc.
Qed.

(** Once every caller has returned, the loop has served each of them
    exactly once and nothing is in flight. *)
Lemma Inv_complete s evs q :
  inv s evs q → all_returned fns s →
  evs = (serial w0 q).1 ∧ world s = (serial w0 q).2 ∧
  q.*1 ≡ₚ seq 0 (length fns).
Proof.
  intros (_ & _ & _ & _ & [Hnd Hin] & Hl) Hall. unfold loop_inv in Hl.
  assert (∀ qd i0 f, fns !! i0 = Some f → are s (busy qd i0) → False)
    as Hbusy.
  { intros qd i0 f Hf Ha.
    destruct (Hall i0) as [e Hi]; [by eapply lookup_lt_Some|].
    rewrite Ha, Hf in Hi. simpl in Hi. unfold busy_status in Hi.
    by rewrite decide_True in Hi. }
  assert (∀ i f, (i, f) ∈ q → fns !! i = Some f) as Hin' by done.
  destruct (runloop s) as [[c0|c0 e0|c0|a b|wv|g|c0 e0| |r|p]|]; try done.
  - destruct Hl as (_ & _ & -> & -> & Hw & Ha). split_and!; try done.
    destruct fns as [|f0 fns']; [done|].
    destruct (Hall 0%nat) as [e Hi]; [simpl; lia|].
    rewrite Ha in Hi. done.
  - destruct Hl as (_ & _ & -> & -> & Hw & Ha). split_and!; try done.
    destruct fns as [|f0 fns']; [done|].
    destruct (Hall 0%nat) as [e Hi]; [simpl; lia|].
    rewrite Ha in Hi. done.
  - destruct Hl as (_ & _ & -> & Hw & Ha). split_and!; try done.
    apply NoDup_Permutation; [done|apply NoDup_seq|].
    intros i. rewrite elem_of_seq. split.
    + intros ([j f] & -> & Hj)%list_elem_of_fmap. simpl.
      apply Hin, lookup_lt_Some in Hj. lia.
    + intros [_ Hlt]. simpl in Hlt.
      destruct (Hall i Hlt) as [e Hi]. rewrite Ha in Hi.
      destruct (fns !! i); [|done]. simpl in Hi. unfold idle_status in Hi.
      destruct (result_of w0 q i) eqn:Hr; [|done].
      destruct (decide (i ∈ q.*1)) as [|Hni]; [done|].
      apply (result_of_None w0) in Hni. congruence.
  - destruct Hl as (q' & i & f & -> & _ & _ & _ & Ha). exfalso.
    eapply Hbusy; [|done]. apply Hin', elem_of_app. right. left.
  - destruct Hl as (q' & i & f & -> & _ & _ & _ & Ha). exfalso.
    eapply Hbusy; [|done]. apply Hin', elem_of_app. right. left.
  - destruct Hl as (q' & i & f & -> & _ & _ & _ & _ & Ha). exfalso.
    eapply Hbusy; [|done]. apply Hin', elem_of_app. right. left.
Qed.

(** The queue of the invariant is the order of receipt read off the
    events. *)
Lemma Inv_arrivals s evs q : inv s evs q → arrivals evs = q.
Proof.
  intros (_ & _ & _ & _ & _ & Hl). unfold loop_inv in Hl.
  destruct (runloop s) as [[c0|c0 e0|c0|a b|wv|g|c0 e0| |r|p]|]; try done.
  - by destruct Hl as (_ & _ & -> & -> & _).
  - by destruct Hl as (_ & _ & -> & -> & _).
  - destruct Hl as (_ & _ & -> & _). apply arrivals_serial.
  - destruct Hl as (q' & i & f & -> & _ & -> & _).
    by rewrite arrivals_app, arrivals_serial.
  - destruct Hl as (q' & i & f & -> & _ & -> & _).
    by rewrite arrivals_app, arrivals_serial.
  - destruct Hl as (q' & i & f & -> & _ & -> & -> & _).
    by rewrite arrivals_app, arrivals_serial.
Qed.

(** *** Progress: the loop can always get on *)

Lemma Inv_progress s evs q n :
  inv s evs q → rank (runloop s) = S n →
  ∃ c ev s1, step SetCurrentContext s c = Some (ev, s1) ∧
             queue_after fns q c = q ∧ rank (runloop s1) = n.
Proof.
  intros HI Hrank. pose proof (Inv_not_crashed _ _ _ HI) as Hcr.
  destruct HI as (Hex & Hcwo & Hceo & Hwt & Hq & Hl).
  unfold loop_inv in Hl. unfold step. rewrite Hcr.
  destruct (runloop s) as [[c0|c0 e0|c0|a b|wv|g|c0 e0| |r|p]|] eqn:Hpc;
    try done; simpl in Hrank; injection Hrank as <-.
  - exists RunLocal. unfold Run_step. rewrite Hpc, Hex, Hactivate. eauto.
  - destruct Hl as (-> & Hcc & _).
    exists RunLocal. unfold Run_step. rewrite Hpc, Hcc. eauto.
  - destruct Hl as (q' & i & f & -> & -> & _).
    exists RunLocal. unfold Run_step. rewrite Hpc. eauto.
  - exists RunLocal. unfold Run_step. rewrite Hpc. eauto.
  - destruct Hl as (q' & i & f & -> & -> & -> & _ & _ & Ha).
    apply queue_ok_last in Hq as [Hf _].
    pose proof (Ha i) as Hi. rewrite Hf in Hi. simpl in Hi.
    unfold busy_status in Hi. rewrite decide_True in Hi by done.
    exists (Push i). unfold push, err_offer. rewrite Hi, Hpc.
    rewrite bool_decide_eq_true_2 by done. rewrite Hceo. simpl. eauto.
Qed.

(** From wherever the loop is, it can finish what it holds and park in
    its select, receiving no further task. *)
Lemma Inv_finish n s evs q :
  inv s evs q → rank (runloop s) = n →
  ∃ sched ev s', execute SetCurrentContext s sched = Some (ev, s') ∧
                 inv s' (evs ++ ev) q ∧ rank (runloop s') = 0%nat.
Proof.
  revert s evs. induction n as [|n IH]; intros s evs HI Hrank.
  - exists [], [], s. rewrite app_nil_r. done.
  - destruct (Inv_progress _ _ _ _ HI Hrank) as (c & ev1 & s1 & Hs & Hqa & Hr).
    pose proof (Inv_step _ _ _ _ _ _ HI Hs) as HI1. rewrite Hqa in HI1.
    destruct (IH _ _ HI1 Hr) as (sched & ev2 & s2 & Hrun & HI2 & Hr2).
    exists (c :: sched), (ev1 ++ ev2), s2. split_and!; [|by rewrite app_assoc|done].
    apply execute_cons. eauto 6.
Qed.

(** A parked loop can receive the task of any caller still waiting to
    send. *)
Lemma Inv_submit s evs q i f :
  inv s evs q → rank (runloop s) = 0%nat →
  fns !! i = Some f → result_of w0 q i = None →
  ∃ ev s1, step SetCurrentContext s (Submit i) = Some (ev, s1) ∧
           inv s1 (evs ++ ev) (q ++ [(i, f)]).
Proof.
  intros HI Hrank Hf Hr. pose proof (Inv_not_crashed _ _ _ HI) as Hcr.
  pose proof HI as (Hex & Hcwo & Hceo & Hwt & Hq & Hl).
  unfold loop_inv in Hl.
  destruct (runloop s) as [[c0|c0 e0|c0|a b|wv|g|c0 e0| |r|p]|] eqn:Hpc;
    try done.
  destruct Hl as (-> & -> & _ & _ & Ha).
  pose proof (Ha i) as Hi. rewrite Hf in Hi. simpl in Hi.
  unfold idle_status in Hi. rewrite Hr in Hi.
  assert (step SetCurrentContext s (Submit i)
          = Some ([EvSubmit i (Some f)],
                  set_runloop (set_caller s i (D_recv (errChan (exec s))))
                              (R_call (Some f)))) as Hs.
  { unfold step. rewrite Hcr. unfold submit. rewrite Hi, Hpc.
    rewrite bool_decide_eq_true_2 by done. by rewrite Hcwo. }
  eexists _, _. split; [exact Hs|].
  apply (Inv_step _ _ _ _ _ _ HI) in Hs. simpl in Hs. by rewrite Hf in Hs.
Qed.

(** A parked loop can serve, one after the other, any callers still
    waiting to send. *)
Lemma Inv_serve todo :
  ∀ s evs q,
    inv s evs q → rank (runloop s) = 0%nat →
    NoDup todo →
    (∀ i, i ∈ todo → is_Some (fns !! i) ∧ result_of w0 q i = None) →
    ∃ sched ev s' q',
      execute SetCurrentContext s sched = Some (ev, s') ∧
      inv s' (evs ++ ev) q' ∧ rank (runloop s') = 0%nat ∧
      ∀ i, i ∈ todo ∨ i ∈ q.*1 → i ∈ q'.*1.
Proof.
  induction todo as [|i todo IH]; intros s evs q HI Hrank Hnd Htodo.
  - exists [], [], s, q. rewrite app_nil_r. split_and!; try done.
    intros i [?%elem_of_nil|?]; done.
  - apply NoDup_cons in Hnd as [Hni Hnd].
    destruct (Htodo i) as [[f Hf] Hr]; [left|].
    destruct (Inv_submit _ _ _ _ _ HI Hrank Hf Hr) as (ev1 & s1 & Hs1 & HI1).
    destruct (Inv_finish _ _ _ _ HI1 eq_refl) as (sc2 & ev2 & s2 & Hrun2 & HI2 & Hr2).
    destruct (IH _ _ _ HI2 Hr2 Hnd) as (sc3 & ev3 & s3 & q' & Hrun3 & HI3 & Hr3 & Hin3).
    { intros j Hj. destruct (Htodo j) as [Hfj Hrj]; [by right|].
      split; [done|]. rewrite result_of_snoc, Hrj.
      rewrite decide_False; [done|]. intros ->. done. }
    exists (Submit i :: sc2 ++ sc3), (ev1 ++ ev2 ++ ev3), s3, q'.
    split_and!; try done.
    + apply execute_cons. exists ev1, s1, (ev2 ++ ev3). split_and!; try done.
      by eapply execute_app.
    + by rewrite !app_assoc in *.
    + intros j Hj. apply Hin3. rewrite fmap_app, elem_of_app. simpl.
      rewrite list_elem_of_singleton.
      destruct Hj as [[->|?]%elem_of_cons|?]; eauto.
Qed.

(** From every state of a serving executor some schedule lets every
    pending [Do] return. *)
Lemma Inv_can_complete s evs q :
  inv s evs q →
  ∃ sched ev s', execute SetCurrentContext s sched = Some (ev, s') ∧
                 all_returned fns s'.
Proof.
  intros HI.
  destruct (Inv_finish _ _ _ _ HI eq_refl) as (sc1 & ev1 & s1 & Hrun1 & HI1 & Hr1).
  destruct (Inv_serve (filter (λ i, result_of w0 q i = None)
                              (seq 0 (length fns)))
                      _ _ _ HI1 Hr1)
    as (sc2 & ev2 & s2 & q' & Hrun2 & HI2 & Hr2 & Hin2).
  { apply NoDup_filter, NoDup_seq. }
  { intros i [Hr [_ Hlt]%elem_of_seq]%list_elem_of_filter.
    split; [by apply lookup_lt_is_Some|done]. }
  exists (sc1 ++ sc2), (ev1 ++ ev2), s2. split; [by eapply execute_app|].
  intros i Hlt.
  assert (i ∈ q'.*1) as Hi.
  { apply Hin2. destruct (result_of w0 q i) eqn:Hr.
    - right. destruct (decide (i ∈ q.*1)) as [|Hni]; [done|].
      apply (result_of_None w0) in Hni. congruence.
    - left. apply list_elem_of_filter. split; [done|]. apply elem_of_seq. lia. }
  destruct HI2 as (_ & _ & _ & _ & _ & Hl). unfold loop_inv in Hl.
  destruct (runloop s2) as [[c0|c0 e0|c0|a b|wv|g|c0 e0| |r|p]|]; try done.
  destruct Hl as (_ & _ & _ & _ & Ha). rewrite Ha.
  apply lookup_lt_is_Some in Hlt as [f ->]. simpl. unfold idle_status.
  destruct (result_of w0 q' i) eqn:Hr; [eauto|].
  by apply result_of_None in Hr.
Qed.

(** *** A serving executor: what its callers observe *)

(** C1.  A goroutine enters [Run(cc)] on an executor with open channels,
    activation succeeds, and the goroutines of [fns] call [Do]
    concurrently.  Under every schedule, the callers whose closure the
    loop received are distinct, and the events of the loop are an initial
    segment of the service, one task at a time, of those callers in the
    order of receipt: each task is received, entered, left and answered to
    its own caller before the next is received.  At every point of the
    execution at most one closure has been entered and not left.  Once
    every [Do] has returned, the events are the whole service, the state
    is the one the closures leave when run in that order, and every caller
    was served exactly once. *)
Theorem Run_serializes (h : Chans) (wt : option WaitPC)
    (sched : list choice) evs s' :
  exec_fresh h →
  wt = None ∨ wt = Some (W_recv cc) →
  execute SetCurrentContext (started ctx h w0 (Some cc) (Some <$> fns) wt) sched
    = Some (evs, s') →
  NoDup (arrivals evs).*1 ∧
  (∀ i f, (i, f) ∈ arrivals evs → fns !! i = Some f) ∧
  evs `prefix_of` (serial w0 (arrivals evs)).1 ∧
  (∀ pre post, evs = pre ++ post →
               (ends pre ≤ begins pre ≤ S (ends pre))%nat) ∧
  (all_returned fns s' →
   evs = (serial w0 (arrivals evs)).1 ∧
   world s' = (serial w0 (arrivals evs)).2 ∧
   (arrivals evs).*1 ≡ₚ seq 0 (length fns)).
Proof.
  intros Hh Hwt Hrun.
  destruct (Inv_execute _ _ _ _ _ _ (Inv_started h wt Hh Hwt) Hrun) as [q HI].
  simpl in HI. rewrite (Inv_arrivals _ _ _ HI).
  pose proof HI as (_ & _ & _ & _ & [Hnd Hin] & _).
  pose proof (Inv_prefix _ _ _ HI) as Hpre.
  split_and!; try done.
  - intros pre post ->. destruct Hpre as [k Hk].
    apply (serial_one_at_a_time w0 q pre (post ++ k)).
    by rewrite app_assoc.
  - by eapply Inv_complete.
Qed.

(** C2.  In the same setting, whenever a [Do] has returned [e], the run
    loop received the closure [f] of that caller, entered it, and [e] is
    the error [f] returned on the state left by the tasks served before
    it; the loop handed [e] to that caller.  And [Do] does return: from
    every state the program reaches, some schedule lets every pending [Do]
    return. *)
Theorem Do_returns_closure_error (h : Chans) (wt : option WaitPC)
    (sched : list choice) evs s' :
  exec_fresh h →
  wt = None ∨ wt = Some (W_recv cc) →
  execute SetCurrentContext (started ctx h w0 (Some cc) (Some <$> fns) wt) sched
    = Some (evs, s') →
  (∀ i e, callers s' !! i = Some (D_ret e) →
     ∃ f q1 post, fns !! i = Some f ∧
       evs = (serial w0 q1).1 ++ block i f e ++ post ∧
       e = (f (serial w0 q1).2).2) ∧
  (∃ sched2 evs2 s2,
     execute SetCurrentContext s' sched2 = Some (evs2, s2) ∧
     all_returned fns s2).
Proof.
  intros Hh Hwt Hrun.
  destruct (Inv_execute _ _ _ _ _ _ (Inv_started h wt Hh Hwt) Hrun) as [q HI].
  simpl in HI. split.
  - intros i e Hi. by eapply Inv_returned.
  - by eapply Inv_can_complete.
Qed.


End Serialization.

(** * NewContext: waiting for the run loop *)

Section AutoStart.

Context {W : Type}.
Variable SetCurrentContext : Z → error.
Variable cuCtxCreate : Z → Z → error * Z.

Lemma callers_Do_not_panicked (ctx : Ctx) (fns : list (option (@closure W))) :
  existsb do_panicked (Do ctx <$> fns) = false.
Proof. induction fns as [|fn fns IH]; simpl; done. Qed.

(** What [auto_start] builds. *)
Lemma auto_start_inv (d fl : Z) (m : Mach) (w0 : W) fns s0 :
  heap_wf (chans m) →
  auto_start cuCtxCreate d fl m w0 fns = Some s0 →
  ∃ ctx h,
    s0 = started ctx h w0 (Some (S (S (nextChan (chans m))))) fns
                 (Some (W_recv (S (S (nextChan (chans m)))))) ∧
    work ctx = Some (nextChan (chans m)) ∧
    errChan ctx = Some (S (nextChan (chans m))) ∧
    done ctx = None ∧
    is_closed h (nextChan (chans m)) = false ∧
    is_closed h (S (nextChan (chans m))) = false ∧
    is_closed h (S (S (nextChan (chans m)))) = false.
Proof.
  intros Hwf. unfold auto_start.
  destruct (NewContext cuCtxCreate d fl m) as [[ctx c] m'|] eqn:HN; [|done].
  intros [= <-]. apply NewContext_fresh in HN as (Hw & He & Hd & -> & Hcl).
  exists ctx, (chans m'). split_and!; try done;
    apply is_closed_false; rewrite Hcl; intros Hin; apply Hwf in Hin; lia.
Qed.

(** On an accepting driver, when making the context current succeeds,
    no goroutine of [NewContext] ever panics, and the constructor returns
    once the run loop has closed the completion channel, the loop then
    being parked in its select. *)
Theorem NewContext_returns (d fl : Z) (m : Mach) (w0 : W)
    (fs : list closure) (s0 : System) :
  heap_wf (chans m) →
  auto_start cuCtxCreate d fl m w0 (Some <$> fs) = Some s0 →
  SetCurrentContext (CUContext (exec s0)) = None →
  (∀ sched evs s',
     execute SetCurrentContext s0 sched = Some (evs, s') →
     crashed s' = false) ∧
  (∃ s1, execute SetCurrentContext s0 [RunLocal; RunLocal; WaitLocal]
         = Some ([], s1) ∧
         waiter s1 = Some W_ret ∧
         runloop s1 = Some (R_select (work (exec s0)) None)).
Proof.
  intros Hwf Hs0 Hact.
  apply auto_start_inv in Hs0
    as (ctx & h & -> & Hw & He & Hd & Hcw & Hce & Hcc); [|done].
  simpl in Hact.
  pose proof (Inv_started ctx (nextChan (chans m)) (S (nextChan (chans m)))
                (S (S (nextChan (chans m)))) w0 fs Hw h
                (Some (W_recv (S (S (nextChan (chans m))))))
                (conj Hcw (conj Hce Hcc)) (or_intror eq_refl)) as HI0.
  assert (S (S (nextChan (chans m))) ≠ nextChan (chans m)) as Hne2 by lia.
  assert (S (S (nextChan (chans m))) ≠ S (nextChan (chans m))) as Hne3 by lia.
  pose proof (Inv_step SetCurrentContext ctx _ _ _ w0 fs Hw He Hd
                Hne2 Hne3 Hact) as Hstep.
  assert (∀ s evs q c ev s1,
            Inv ctx (nextChan (chans m)) (S (nextChan (chans m)))
                (S (S (nextChan (chans m)))) w0 fs s evs q →
            step SetCurrentContext s c = Some (ev, s1) →
            crashed s1 = false) as Hnext.
  { intros s evs q c ev s1 HI Hs. eapply Inv_not_crashed, Hstep; done. }
  split.
  - intros sched evs s' Hrun.
    destruct (Inv_execute SetCurrentContext ctx _ _ _ w0 fs Hw He Hd
                Hne2 Hne3 Hact _ _ _ _ _ _ HI0 Hrun) as [q HI].
    by eapply Inv_not_crashed.
  - set (s0 := started _ _ _ _ _ _) in *.
    assert (step SetCurrentContext s0 RunLocal
            = Some ([], set_runloop s0 (R_close (Some (S (S (nextChan (chans m))))))))
      as H1.
    { unfold step. rewrite (Inv_not_crashed _ _ _ _ _ _ _ _ _ HI0).
      unfold Run_step. simpl. by rewrite Hact. }
    assert (step SetCurrentContext
                 (set_runloop s0 (R_close (Some (S (S (nextChan (chans m)))))))
                 RunLocal
            = Some ([], set_runloop (close_in s0 (S (S (nextChan (chans m)))))
                                    (R_select (work ctx) (done ctx))))
      as H2.
    { unfold step. rewrite (Hnext _ _ _ _ _ _ HI0 H1).
      unfold Run_step. simpl. by rewrite Hcc. }
    assert (crashed (set_runloop (close_in s0 (S (S (nextChan (chans m)))))
                                 (R_select (work ctx) (done ctx))) = false)
      as Hc2.
    { eapply Hnext; [|exact H2]. eapply Hstep; [exact HI0|exact H1]. }
    eexists. split.
    + simpl. rewrite H1, H2. unfold step. rewrite Hc2.
      unfold wait_step. simpl. unfold is_closed. simpl.
      rewrite bool_decide_eq_true_2 by left. done.
    + simpl. by rewrite Hd.
Qed.

(** On an accepting driver, when making the context current fails with
    [e], the run loop hands [e] to the waiting constructor, which panics
    with it; under no schedule does the constructor return or the loop
    serve. *)
Theorem NewContext_activation_failure (d fl : Z) (m : Mach) (w0 : W)
    (fns : list (option closure)) (s0 : System) (e : Z) :
  heap_wf (chans m) →
  auto_start cuCtxCreate d fl m w0 fns = Some s0 →
  SetCurrentContext (CUContext (exec s0)) = Some e →
  (∃ s1, execute SetCurrentContext s0 [RunLocal; Report] = Some ([], s1) ∧
         waiter s1 = Some (W_panic (PanicErr e)) ∧ crashed s1 = true) ∧
  (∀ sched evs s',
     execute SetCurrentContext s0 sched = Some (evs, s') →
     waiter s' ≠ Some W_ret ∧ serving (runloop s') = false).
Proof.
  intros Hwf Hs0 Hact.
  apply auto_start_inv in Hs0
    as (ctx & h & -> & Hw & He & Hd & Hcw & Hce & Hcc); [|done].
  set (cc := S (S (nextChan (chans m)))) in *.
  set (s0 := started _ _ _ _ _ _) in *.
  assert (crashed s0 = false) as Hok.
  { unfold crashed. simpl. by rewrite callers_Do_not_panicked. }
  split.
  - eexists. split; [by apply (failed_Run_reports _ s0 cc e)|].
    split; [done|]. unfold crashed. simpl. by rewrite orb_true_r.
  - intros sched evs s' Hrun.
    eapply (execute_invariant SetCurrentContext _
              (failed_Run_waiter_step SetCurrentContext cc e)) in Hrun.
    + destruct Hrun as (_ & _ & _ & [[-> [-> | ->]]|[-> ->]]); done.
    + split_and!; try done.
      * intros i c. simpl. rewrite list_lookup_fmap.
        by destruct (fns !! i).
      * left. split; [done|]. by left.
Qed.

End AutoStart.

Lemma NewContext_returns_witness :
  ∃ s1, execute setcur_ok auto7 [RunLocal; RunLocal; WaitLocal] = Some ([], s1) ∧
        waiter s1 = Some W_ret ∧
        runloop s1 = Some (R_select (work (exec auto7)) None).
Proof.
  destruct (NewContext_returns setcur_ok create_ok 0 0 m0 [] fns3 auto7
              heap_wf_m0 eq_refl eq_refl) as [_ H].
  exact H.
Defined.

Lemma NewContext_activation_failure_witness :
  ∃ s1, execute setcur_fails failing7 [RunLocal; Report] = Some ([], s1) ∧
        waiter s1 = Some (W_panic (PanicErr 201)) ∧ crashed s1 = true.
Proof.
  destruct (NewContext_activation_failure setcur_fails create_ok 0 0 m0 []
              [] failing7 201 heap_wf_m0 eq_refl eq_refl) as [H _].
  exact H.
Defined.


Example auto_start_auto7 :
  auto_start create_ok 0 0 m0 [] (Some <$> fns3) = Some auto7.
Proof. reflexivity. Qed.

Example execute_sched3 :
  execute setcur_ok auto7 sched3 = Some ((serial [] queue3).1, served3).
Proof. reflexivity. Qed.

Lemma Run_serializes_witness :
  NoDup (arrivals (serial [] queue3).1).*1 ∧
  (∀ i f, (i, f) ∈ arrivals (serial [] queue3).1 → fns3 !! i = Some f) ∧
  (serial [] queue3).1
    `prefix_of` (serial [] (arrivals (serial [] queue3).1)).1 ∧
  (∀ pre post, (serial [] queue3).1 = pre ++ post →
               (ends pre ≤ begins pre ≤ S (ends pre))%nat) ∧
  (all_returned fns3 served3 →
   (serial [] queue3).1 = (serial [] (arrivals (serial [] queue3).1)).1 ∧
   world served3 = (serial [] (arrivals (serial [] queue3).1)).2 ∧
   (arrivals (serial [] queue3).1).*1 ≡ₚ seq 0 (length fns3)).
Proof.
  apply (Run_serializes setcur_ok ctx7 0 1 2 [] fns3
           eq_refl eq_refl eq_refl) with (h := mkChans 3 []) (wt := Some (W_recv 2))
                                         (sched := sched3);
    [ discriminate | discriminate | reflexivity
    | repeat split | by right | reflexivity ].
Defined.

Lemma Do_returns_closure_error_witness :
  (∀ i e, callers served3 !! i = Some (D_ret e) →
     ∃ f q1 post, fns3 !! i = Some f ∧
       (serial [] queue3).1 = (serial [] q1).1 ++ block i f e ++ post ∧
       e = (f (serial [] q1).2).2) ∧
  (∃ sched2 evs2 s2,
     execute setcur_ok served3 sched2 = Some (evs2, s2) ∧ all_returned fns3 s2).
Proof.
  apply (Do_returns_closure_error setcur_ok ctx7 0 1 2 [] fns3
           eq_refl eq_refl eq_refl) with (h := mkChans 3 []) (wt := Some (W_recv 2))
                                         (sched := sched3);
    [ discriminate | discriminate | reflexivity
    | repeat split | by right | reflexivity ].
Defined.

Lemma Run_activation_failure_witness :
  execute setcur_fails failing7 [RunLocal; Report]
  = Some ([], set_runloop (set_waiter failing7 (W_panic (PanicErr 201)))
                          (R_ret None)).
Proof.
  destruct (Run_activation_failure setcur_fails failing7 (Some 2%nat) 201
              eq_refl eq_refl eq_refl) as (_ & _ & H).
  destruct (H 2%nat eq_refl) as [_ H2].
  exact (H2 eq_refl eq_refl).
Defined.

(** * Run with no completion channel *)

Section RunNil.

Context {W : Type}.
Variable SetCurrentContext : Z → error.

(** [Run(nil)] never reaches the serving loop: it returns the activation
    error, or panics closing the nil channel. *)
Lemma Run_nil_never_serves (s : @System W) sched evs s' :
  runloop s = Some (R_start None) →
  execute SetCurrentContext s sched = Some (evs, s') →
  serving (runloop s') = false.
Proof.
  intros Hpc Hrun.
  assert (runloop s' = Some (R_start None) ∨ runloop s' = Some (R_close None) ∨
          runloop s' = Some (R_panic CloseNilChan) ∨
          ∃ e, runloop s' = Some (R_ret e)) as Hs'.
  { eapply (execute_invariant SetCurrentContext
              (λ s, runloop s = Some (R_start None) ∨
                    runloop s = Some (R_close None) ∨
                    runloop s = Some (R_panic CloseNilChan) ∨
                    ∃ e, runloop s = Some (R_ret e)));
      [|by left|exact Hrun].
    clear. intros s c evs s' Hpc Hstep.
    destruct Hpc as [Hpc|[Hpc|[Hpc|[e Hpc]]]];
      step_inv Hstep; simpl; eauto. }
  destruct Hs' as [-> | [-> | [-> | [e ->]]]]; done.
Qed.

End RunNil.

(** C6, on the code.  On the executor of the manual constructor, with a
    driver that makes the context current, [Run(nil)] panics at
    [close(errChan)]: the program has crashed after the loop's second
    step, and under no schedule does the loop serve.  Given a completion
    channel, the same two steps leave the loop parked in its select. *)
Example Run_nil_panics :
  NewManuallyManagedContext create_ok 0 0 m0 = Ok ctx7 m7 ∧
  execute setcur_ok Run_nil7 [RunLocal; RunLocal]
    = Some ([], set_runloop Run_nil7 (R_panic CloseNilChan)) ∧
  crashed (set_runloop Run_nil7 (R_panic CloseNilChan)) = true ∧
  (¬ ∃ sched evs s',
       execute setcur_ok Run_nil7 sched = Some (evs, s') ∧
       serving (runloop s') = true) ∧
  ∃ s1, execute setcur_ok auto7 [RunLocal; RunLocal] = Some ([], s1) ∧
        runloop s1 = Some (R_select (Some 0%nat) None).
Proof.
  split_and!; try reflexivity; [|by eexists].
  intros (sched & evs & s' & Hrun & Hserv).
  apply Run_nil_never_serves in Hrun; [|reflexivity]. congruence.
Qed.

(** * Do before Run *)

Section DoBeforeRun.

Context {W : Type}.
Variable SetCurrentContext : Z → error.
Variable cuCtxCreate : Z → Z → error * Z.

(** With no goroutine in [Run] and every caller parked on its send to an
    open channel, nothing can move. *)
Lemma unstarted_stuck (ctx : Ctx) (m : Mach) (w0 : W) fns cw c :
  work ctx = Some cw → is_closed (chans m) cw = false →
  step SetCurrentContext (unstarted ctx m w0 fns) c = None.
Proof.
  intros Hw Hcw. unfold step. destruct (crashed _); [done|].
  destruct c as [| |i|i| |i|]; try done.
  - unfold submit; simpl. by repeat case_match.
  - unfold push; simpl. by repeat case_match.
  - unfold Do_step; simpl. rewrite list_lookup_fmap. unfold Do. rewrite Hw.
    destruct (fns !! i); simpl; [|done]. by rewrite Hcw.
Qed.

(** C10.  On an executor returned by the manual constructor or built
    around an existing handle, with no goroutine in [Run], no step is
    possible: under every schedule the program is where it started, each
    caller of [Do] parked on its send to the task channel, which is open
    and has no receiver; no [Do] has returned.  Once a goroutine enters
    [Run] with a fresh completion channel and activation succeeds, some
    schedule lets every [Do] return. *)
Theorem Do_before_Run_blocks (d fl cuctx : Z) (m m' : Mach) (ctx : Ctx)
    (w0 : W) (fns : list (option closure)) :
  heap_wf (chans m) →
  NewManuallyManagedContext cuCtxCreate d fl m = Ok ctx m' ∨
  CtxFromCUContext d cuctx fl m = Ok ctx m' →
  (∀ c, step SetCurrentContext (unstarted ctx m' w0 fns) c = None) ∧
  (∀ sched evs s',
     execute SetCurrentContext (unstarted ctx m' w0 fns) sched
       = Some (evs, s') →
     s' = unstarted ctx m' w0 fns ∧
     valid_chan (heap s') (work ctx) = true ∧
     ∀ i e, callers s' !! i ≠ Some (D_ret e)) ∧
  (SetCurrentContext (CUContext ctx) = None →
   ∀ fs, fns = Some <$> fs →
   ∃ sched evs s',
     execute SetCurrentContext
         (started ctx (mkChans (S (nextChan (chans m'))) (closedChans (chans m')))
                  w0 (Some (nextChan (chans m'))) fns None)
         sched = Some (evs, s') ∧
     all_returned fs s').
Proof.
  intros Hwf Hctx.
  destruct (manual_constructors_fresh _ _ _ _ _ _ _ Hwf Hctx)
    as (Hw & He & Hd & Hcl & Hnx).
  assert (∀ k, (nextChan (chans m) ≤ k)%nat → is_closed (chans m') k = false)
    as Hopen.
  { intros k Hk. apply is_closed_false. rewrite Hcl. intros Hin.
    apply Hwf in Hin. lia. }
  assert (∀ c, step SetCurrentContext (unstarted ctx m' w0 fns) c = None)
    as Hstuck.
  { intros c. eapply unstarted_stuck; [done|]. by apply Hopen. }
  split_and!; [done| |].
  - intros [|c sched] evs s' Hrun.
    + injection Hrun as <- <-. simpl. rewrite Hw. split_and!; [done| |].
      * simpl. by rewrite Hopen.
      * intros i e. rewrite list_lookup_fmap.
        by destruct (fns !! i).
    + simpl in Hrun. by rewrite Hstuck in Hrun.
  - intros Hact fs ->.
    assert (Inv ctx (nextChan (chans m)) (S (nextChan (chans m)))
                (nextChan (chans m')) w0 fs
                (started ctx (mkChans (S (nextChan (chans m')))
                                      (closedChans (chans m')))
                         w0 (Some (nextChan (chans m'))) (Some <$> fs) None)
                [] []) as HI.
    { apply Inv_started; [done| |by left].
      split_and!; apply is_closed_false; simpl; rewrite Hcl; intros Hin;
        apply Hwf in Hin; lia. }
    eapply (Inv_can_complete SetCurrentContext) in HI; try done; lia.
Qed.

End DoBeforeRun.

Lemma Do_before_Run_blocks_witness :
  unstarted ctx7 m7 [] (Some <$> fns3) = unstarted ctx7 m7 [] (Some <$> fns3) ∧
  valid_chan (heap (unstarted ctx7 m7 [] (Some <$> fns3))) (work ctx7) = true ∧
  ∀ i e, callers (unstarted ctx7 m7 [] (Some <$> fns3)) !! i ≠ Some (D_ret e).
Proof.
  destruct (Do_before_Run_blocks setcur_ok create_ok 0 0 0 m0 m7 ctx7 []
              (Some <$> fns3) heap_wf_m0 (or_introl eq_refl)) as (_ & H & _).
  exact (H [] [] _ eq_refl).
Defined.

(** * The channels and the lifecycle *)

Section ChannelsAndLifecycle.

Context {W : Type}.
Variable SetCurrentContext : Z → error.
Variable cuCtxCreate : Z → Z → error * Z.
Variable cuCtxDestroy : Z → error.

Implicit Types (s : @System W).








End ChannelsAndLifecycle.


(** * The error accessor *)

Section ErrorFacts.

Variable cuCtxCreate : Z → Z → error * Z.
Variable cuCtxDestroy : Z → error.

Lemma Close_keeps_err ctx m ctx1 e1 m1 :
  Close cuCtxDestroy ctx m = Ok (ctx1, e1) m1 → err ctx1 = err ctx.
Proof.
  unfold Close. case_bool_decide; [by intros [= <- _ _]|].
  unfold mbind, M_bind, close_chan, emit, mret, M_ret.
  destruct (errChan ctx) as [ce|] eqn:He, (work ctx) as [cw|] eqn:Hw; simpl;
    repeat (rewrite ?He, ?Hw; simpl;
            try match goal with
                | |- context [is_closed ?h ?c] => destruct (is_closed h c)
                end; simpl);
    try discriminate; by intros [= <- _ _].
Qed.

(** X5.  No constructor and no [Close] writes the [err] field: on every
    executor a constructor returned, after any number of completed calls
    of [Close], whatever the driver answered, [Error] returns nil. *)
Theorem Error_always_nil ctx :
  obtained cuCtxCreate cuCtxDestroy ctx → Error ctx = None.
Proof.
  unfold Error. induction 1 as [d fl m ctx m' H|d cu fl m ctx m' H
                               |d fl m ctx c m' H|ctx m ctx' e m' _ IH H].
  - unfold NewManuallyManagedContext, mbind, M_bind, emit in H.
    destruct (cuCtxCreate fl d) as [[e|] h]; [discriminate|].
    rewrite newContext_spec in H. by injection H as <- _.
  - unfold CtxFromCUContext, mbind, M_bind in H.
    rewrite newContext_spec in H. by injection H as <- _.
  - unfold NewContext, mbind, M_bind, emit in H.
    destruct (cuCtxCreate fl d) as [[e|] h]; [discriminate|].
    rewrite newContext_spec in H. by injection H as <- _ _.
  - by rewrite (Close_keeps_err _ _ _ _ _ H).
Qed.

(** X6.  [CtxFromCUContext] asks nothing of the driver and always returns;
    [Close] on the executor it returned destroys the wrapped context and
    returns the driver's answer, unless the wrapped handle is empty: then
    [Close] does nothing, and the two channels stay open. *)
Theorem CtxFromCUContext_then_Close (d cuctx fl : Z) (m : Mach) :
  heap_wf (chans m) →
  let cw := nextChan (chans m) in
  let ce := S cw in
  ∃ ctx m1,
    CtxFromCUContext d cuctx fl m = Ok ctx m1 ∧
    effects m1 = effects m ++ [EMake cw; EMake ce; ESetFinalizer] ∧
    (cuctx = 0 → Close cuCtxDestroy ctx m1 = Ok (ctx, None) m1) ∧
    (cuctx ≠ 0 →
     ∃ ctx' m2,
       Close cuCtxDestroy ctx m1 = Ok (ctx', cuCtxDestroy cuctx) m2 ∧
       effects m2 = effects m1 ++ [ECloseChan ce; EClear FErrChan;
                                   ECloseChan cw; EClear FWork;
                                   EDestroy cuctx; EClear FHandle]).
Proof.
  intros Hwf cw ce. unfold CtxFromCUContext, mbind, M_bind.
  rewrite newContext_spec. unfold mret, M_ret. eexists _, _.
  split; [done|]. split; [done|]. split.
  - intros ->. by apply Close_empty.
  - intros Hne. eexists _, _.
    rewrite (Close_live cuCtxDestroy _ _ cw ce); simpl; try done.
    all: subst ce cw; try (apply Nat.neq_succ_diag_r).
    all: apply is_closed_false; intros Hin; apply Hwf in Hin; lia.
Qed.

End ErrorFacts.

Lemma Error_always_nil_witness :
  ∃ ctx, Close destroy_fails ctx7 m7 = Ok (ctx, Some 301) m7_closed ∧
         Error ctx = None.
Proof.
  exists ctx7_closed. split; [reflexivity|].
  apply (Error_always_nil create_ok destroy_fails).
  apply (obtained_closed _ _ ctx7 m7 ctx7_closed (Some 301) m7_closed).
  - by apply (obtained_manual _ _ 0 0 m0 ctx7 m7).
  - reflexivity.
Defined.

Lemma CtxFromCUContext_then_Close_witness :
  ∃ ctx m1,
    CtxFromCUContext 0 7 0 m0 = Ok ctx m1 ∧
    effects m1 = effects m0 ++ [EMake 0%nat; EMake 1%nat; ESetFinalizer] ∧
    (7 = 0 → Close destroy_ok ctx m1 = Ok (ctx, None) m1) ∧
    (7 ≠ 0 →
     ∃ ctx' m2,
       Close destroy_ok ctx m1 = Ok (ctx', destroy_ok 7) m2 ∧
       effects m2 = effects m1 ++ [ECloseChan 1%nat; EClear FErrChan;
                                   ECloseChan 0%nat; EClear FWork;
                                   EDestroy 7; EClear FHandle]).
Proof.
  exact (CtxFromCUContext_then_Close destroy_ok 0 7 0 m0 heap_wf_m0).
Defined.

(** * Do with a nil function *)

Section DoNil.

Context {W : Type}.
Variable SetCurrentContext : Z → error.

(** X7.  [Do(nil)] on a serving executor: the run loop receives the nil
    func and panics calling it.  The caller is left waiting for the
    result, and the crashed program takes no further step. *)
Theorem Do_nil_crashes_loop (s : @System W) (cw : chan) (cd : option chan)
    (i : nat) :
  runloop s = Some (R_select (Some cw) cd) →
  callers s !! i = Some (D_send (Some cw) None) →
  is_closed (heap s) cw = false →
  crashed s = false →
  ∃ s2, execute SetCurrentContext s [Submit i; RunLocal]
          = Some ([EvSubmit i None], s2) ∧
        runloop s2 = Some (R_panic NilFuncCall) ∧
        callers s2 !! i = Some (D_recv (errChan (exec s))) ∧
        ∀ c, step SetCurrentContext s2 c = None.
Proof.
  intros Hpc Hi Hopen Hok.
  set (s1 := set_runloop (set_caller s i (D_recv (errChan (exec s))))
                         (R_call None)).
  assert (step SetCurrentContext s (Submit i) = Some ([EvSubmit i None], s1))
    as H1.
  { unfold step. rewrite Hok. unfold submit. rewrite Hi, Hpc.
    by rewrite bool_decide_eq_true_2, Hopen. }
  assert (callers s1 !! i = Some (D_recv (errChan (exec s)))) as Hi1.
  { simpl. apply list_lookup_insert_eq. by eapply lookup_lt_Some. }
  assert (crashed s1 = false) as Hok1.
  { unfold crashed in *. simpl. rewrite Hpc in Hok. simpl in Hok.
    apply orb_false_iff in Hok as [Hc Hw]. rewrite Hw, orb_false_r.
    apply not_true_iff_false. intros (d & Hin & Hd)%existsb_exists.
    apply list_elem_of_In, list_elem_of_lookup in Hin as [j Hj].
    destruct (decide (j = i)) as [->|Hne].
    - rewrite list_lookup_insert_eq in Hj by (by eapply lookup_lt_Some).
      by injection Hj as <-.
    - rewrite list_lookup_insert_ne in Hj by done.
      apply not_true_iff_false in Hc. apply Hc, existsb_exists.
      exists d. split; [|done]. apply list_elem_of_In.
      by eapply list_elem_of_lookup_2. }
  exists (set_runloop s1 (R_panic NilFuncCall)). split_and!.
  - simpl. rewrite H1. unfold step. by rewrite Hok1.
  - done.
  - done.
  - intros c. by unfold step, crashed.
Qed.

End DoNil.

Lemma Do_nil_crashes_loop_witness :
  ∃ s2, execute setcur_ok do_nil7 [Submit 0%nat; RunLocal]
          = Some ([EvSubmit 0%nat None], s2) ∧
        runloop s2 = Some (R_panic NilFuncCall) ∧
        callers s2 !! 0%nat = Some (D_recv (errChan (exec do_nil7))) ∧
        ∀ c, step setcur_ok s2 c = None.
Proof.
  apply (Do_nil_crashes_loop setcur_ok do_nil7 0%nat None 0%nat);
    reflexivity.
Defined.

(** * The binding generator *)

(** ** The case of the first byte *)

Section CaseFirst.

Local Open Scope N_scope.

Local Ltac bytes c := destruct c as [[] [] [] [] [] [] [] []].

Lemma String_neq_tail c (s : string) : String c s ≠ s.
Proof. intros H. apply (f_equal String.length) in H. simpl in H. lia. Qed.

Lemma string_length_app (a b : string) :
  String.length (a +:+ b) = (String.length a + String.length b)%nat.
Proof. induction a as [|c a IH]; simpl; [done | by rewrite IH]. Qed.

(** X8.  On a string that starts with an ASCII byte the later of two
    conversions decides: lower-casing before upper-casing changes
    nothing of the upper-cased result, and each conversion is
    idempotent. *)
Theorem case_first_absorbs c rest :
  N_of_ascii c < 128 →
  let s := String c rest in
  UpperCaseFirst (LowerCaseFirst s) = UpperCaseFirst s ∧
  LowerCaseFirst (UpperCaseFirst s) = LowerCaseFirst s ∧
  UpperCaseFirst (UpperCaseFirst s) = UpperCaseFirst s ∧
  LowerCaseFirst (LowerCaseFirst s) = LowerCaseFirst s.
Proof.
  intros H. bytes c; try (vm_compute in H; discriminate); vm_compute; done.
Qed.

(** X9.  [UpperCaseFirst] on a string that starts with a lower-case
    letter replaces that letter by its capital and keeps the rest;
    [LowerCaseFirst] leaves such a string alone and undoes
    [UpperCaseFirst]. *)
Theorem UpperCaseFirst_lower_letter c rest :
  is_lower (N_of_ascii c) = true →
  let s := String c rest in
  UpperCaseFirst s = String (ascii_of_N (N_of_ascii c - 32)) rest ∧
  LowerCaseFirst s = s ∧
  LowerCaseFirst (UpperCaseFirst s) = s.
Proof.
  intros H. bytes c; try (vm_compute in H; discriminate); vm_compute; done.
Qed.

(** X10.  [LowerCaseFirst] on a string that starts with a capital letter
    replaces that letter by its lower-case letter and keeps the rest;
    [UpperCaseFirst] leaves such a string alone and undoes
    [LowerCaseFirst]. *)
Theorem LowerCaseFirst_upper_letter c rest :
  is_upper (N_of_ascii c) = true →
  let s := String c rest in
  LowerCaseFirst s = String (ascii_of_N (N_of_ascii c + 32)) rest ∧
  UpperCaseFirst s = s ∧
  UpperCaseFirst (LowerCaseFirst s) = s.
Proof.
  intros H. bytes c; try (vm_compute in H; discriminate); vm_compute; done.
Qed.

(** X11.  Which non-empty strings the conversions leave unchanged:
    [UpperCaseFirst] those whose first byte is ASCII with bit 0x20 clear,
    [LowerCaseFirst] those whose first byte is ASCII with bit 0x20 set.
    Every other first byte is rewritten, a letter or not: a leading digit
    is upper-cased to a control byte, a leading underscore lower-cased to
    DEL. *)
Theorem case_first_unchanged_iff c rest :
  let s := String c rest in
  (UpperCaseFirst s = s ↔
     N_of_ascii c < 128 ∧ N.testbit (N_of_ascii c) 5 = false) ∧
  (LowerCaseFirst s = s ↔
     N_of_ascii c < 128 ∧ N.testbit (N_of_ascii c) 5 = true).
Proof.
  bytes c; cbv zeta; unfold UpperCaseFirst, LowerCaseFirst;
    (split; (split;
     [ intros H; vm_compute in H;
       first [ discriminate H
             | injection H as H; by apply String_neq_tail in H
             | by vm_compute ]
     | intros [H1 H2]; vm_compute in H1, H2;
       first [discriminate | by vm_compute] ])).
Qed.

(** X12.  The length of the result: that of the argument when it is empty
    or starts with an ASCII byte, one byte more when the first byte is
    0x80 or above, which the conversion to a string encodes in two
    bytes. *)
Theorem case_first_length s :
  let grows := match s with
               | EmptyString => false
               | String c _ => 128 <=? N_of_ascii c
               end in
  String.length (UpperCaseFirst s) =
    (String.length s + (if grows then 1 else 0))%nat ∧
  String.length (LowerCaseFirst s) =
    (String.length s + (if grows then 1 else 0))%nat.
Proof.
  destruct s as [|c rest]; [done|].
  unfold UpperCaseFirst, LowerCaseFirst.
  rewrite !string_length_app.
  bytes c;
    repeat match goal with
           | |- context [String.length (string_of_byte ?b)] =>
               let v := eval vm_compute in (String.length (string_of_byte b)) in
               change (String.length (string_of_byte b)) with v
           | |- context [N.leb ?a ?b] =>
               let v := eval vm_compute in (N.leb a b) in
               change (N.leb a b) with v
           end; simpl; lia.
Qed.

End CaseFirst.

Lemma case_first_absorbs_witness :
  UpperCaseFirst (LowerCaseFirst "Sgemm") = UpperCaseFirst "Sgemm" ∧
  LowerCaseFirst (UpperCaseFirst "Sgemm") = LowerCaseFirst "Sgemm" ∧
  UpperCaseFirst (UpperCaseFirst "Sgemm") = UpperCaseFirst "Sgemm" ∧
  LowerCaseFirst (LowerCaseFirst "Sgemm") = LowerCaseFirst "Sgemm".
Proof. apply (case_first_absorbs "S" "gemm"). reflexivity. Defined.

Lemma UpperCaseFirst_lower_letter_witness :
  UpperCaseFirst "sgemm" = "Sgemm" ∧
  LowerCaseFirst "sgemm" = "sgemm" ∧
  LowerCaseFirst (UpperCaseFirst "sgemm") = "sgemm".
Proof. apply (UpperCaseFirst_lower_letter "s" "gemm"). reflexivity. Defined.

Lemma LowerCaseFirst_upper_letter_witness :
  LowerCaseFirst "Sgemm" = "sgemm" ∧
  UpperCaseFirst "Sgemm" = "Sgemm" ∧
  UpperCaseFirst (LowerCaseFirst "Sgemm") = "Sgemm".
Proof. apply (LowerCaseFirst_upper_letter "S" "gemm"). reflexivity. Defined.

(** ** cblasTocublas *)

Section TitleFacts.

Lemma HasPrefix_app pre s : HasPrefix (pre +:+ s) pre = true.
Proof.
  induction pre as [|p pre IH]; simpl; [by destruct s|].
  by rewrite bool_decide_eq_true_2, IH.
Qed.

Lemma drop_bytes_app pre s : drop_bytes (String.length pre) (pre +:+ s) = s.
Proof. induction pre as [|p pre IH]; simpl; [by destruct s | done]. Qed.

Lemma TrimPrefix_app pre s : TrimPrefix (pre +:+ s) pre = s.
Proof. unfold TrimPrefix. by rewrite HasPrefix_app, drop_bytes_app. Qed.

(** Inside an identifier no byte starts a new word. *)
Lemma Title_from_ident prev s :
  isSeparator prev = false → ident_bytes s = true → Title_from prev s = s.
Proof.
  revert prev. induction s as [|c s IH]; intros prev Hp Hs; simpl; [done|].
  simpl in Hs. apply andb_true_iff in Hs as [Hc Hs].
  rewrite Hp. f_equal. apply IH; [|done].
  unfold ident_byte in Hc. by apply negb_true_iff in Hc.
Qed.

Lemma Title_ident c rest :
  ident_bytes (String c rest) = true →
  Title (String c rest) = String (ascii_of_N (ToTitle (N_of_ascii c))) rest.
Proof.
  intros Hs. simpl in Hs. apply andb_true_iff in Hs as [Hc Hs].
  unfold Title. simpl. f_equal. apply Title_from_ident; [|done].
  unfold ident_byte in Hc. by apply negb_true_iff in Hc.
Qed.

Variable prefix : string.

(** X13.  On a C identifier that starts with the prefix, [cblasTocublas]
    replaces the prefix by [cublas] and capitalizes the byte that
    followed it; nothing else changes, a letter after an underscore
    stays as it is. *)
Theorem cblasTocublas_prefixed c rest :
  ident_bytes (String c rest) = true →
  cblasTocublas prefix (prefix +:+ String c rest) =
    "cublas" +:+ String (ascii_of_N (ToTitle (N_of_ascii c))) rest.
Proof.
  intros Hs. unfold cblasTocublas. by rewrite TrimPrefix_app, Title_ident.
Qed.

End TitleFacts.

Lemma cblasTocublas_prefixed_witness :
  cblasTocublas "cblas_" "cblas_s_gemm" = "cublasS_gemm".
Proof. apply (cblasTocublas_prefixed "cblas_" "s" "_gemm"). reflexivity. Defined.

(** ** Types and conversions *)

Section Conversions.

(** X14.  With the built-in table, the Go type of a pointer to a C
    number is the Go type of the number, as a slice unless the parameter
    is one of the six scalar names. *)
Theorem GoTypeFor_pointer_rule k tag name :
  numeric k = true →
  ∃ g, GoTypeFor (Some (cc.Base k tag)) name [] = Text g ∧
       GoTypeFor (Some (cc.Pointer (cc.Base k tag))) name [] =
         Text ((if is_scalar_name name then "" else "[]") +:+ g).
Proof.
  intros Hk. unfold is_scalar_name.
  destruct k; try discriminate Hk;
    (eexists; split; [by vm_compute|]);
    unfold GoTypeFor, execute_template; simpl;
    unfold Pure, render; simpl; by case_bool_decide.
Qed.

(** X15.  With the built-in table, the C conversion of a pointer to a C
    number takes the address of the parameter's element 0 exactly when
    [GoTypeFor] makes the parameter a slice: the text around the name
    depends on the kind only, and [[0]] follows the name unless it is one
    of the six scalar names. *)
Theorem CgoConversionFor_indexes_slices k tag :
  numeric k = true →
  ∃ pre suf, ∀ name,
    CgoConversionFor name (Some (cc.Pointer (cc.Base k tag))) [] =
      Text (pre +:+ name +:+
            (if is_scalar_name name then "" else "[0]") +:+ suf).
Proof.
  intros Hk. unfold is_scalar_name.
  destruct k; try discriminate Hk;
    unfold CgoConversionFor, execute_template; simpl;
    unfold Pure, render; simpl.
  all: eexists _, _; intros name; f_equal.
Qed.

(** X16.  [void*] with the built-in tables: [GoTypeFor] has no entry and
    panics, [CgoConversionFor] returns.  Of the two entries its table
    has for [void*] the later is in force: only [alpha] and [beta] are
    passed by address, the four other scalar names are indexed. *)
Theorem void_pointer_defaults tag name :
  let typ := Some (cc.Pointer (cc.Base cc.Void tag)) in
  GoTypeFor typ name [] = GenPanic UnknownTypeKey ∧
  CgoConversionFor name typ [] =
    Text ("unsafe.Pointer(&" +:+ name +:+
          (if bool_decide (name ∈ ["alpha"; "beta"]) then "" else "[0]") +:+
          ")").
Proof. split; [done|]. by vm_compute. Qed.

Lemma first_mapping_None {K} (types : list (K → option Template)) k :
  first_mapping types k = None ↔ ∀ t, t ∈ types → t k = None.
Proof.
  induction types as [|t types IH]; simpl.
  - split; [intros _ t Ht; by apply elem_of_nil in Ht | done].
  - destruct (t k) eqn:Ht.
    + split; [done|]. intros H. specialize (H t ltac:(by left)).
      congruence.
    + rewrite IH. split.
      * intros H t' [->|Hin]%elem_of_cons; auto.
      * intros H t' Hin. apply H. by right.
Qed.

Lemma first_mapping_app {K} (ts1 ts2 : list (K → option Template)) k :
  first_mapping ts1 k = None →
  first_mapping (ts1 ++ ts2) k = first_mapping ts2 k.
Proof.
  induction ts1 as [|t ts1 IH]; simpl; [done|].
  destruct (t k); [done | exact IH].
Qed.

(** X17.  User mappings that have no entry for the type's key do not
    matter: the result is that of the mappings after them, and of the
    built-in table when there are none. *)
Theorem unmapped_types_ignored t name ts1 ts2 :
  (∀ m, m ∈ ts1 → m (type_key t) = None) →
  GoTypeFor (Some t) name (ts1 ++ ts2) = GoTypeFor (Some t) name ts2 ∧
  CgoConversionFor name (Some t) (ts1 ++ ts2) =
    CgoConversionFor name (Some t) ts2.
Proof.
  intros H%first_mapping_None. unfold GoTypeFor, CgoConversionFor.
  by rewrite !(first_mapping_app _ _ _ H).
Qed.

(** X18.  The two built-in tables cover the same types, but for two
    keys: a type other than one of undefined kind and [void*] has a Go
    type exactly when it has a C conversion. *)
Theorem defaults_cover_same_types t name :
  cc.kind t ≠ cc.Undefined →
  type_key t ≠ mkTypeKey cc.Void true →
  (∃ g, GoTypeFor (Some t) name [] = Text g) ↔
  (∃ c, CgoConversionFor name (Some t) [] = Text c).
Proof.
  intros Hu Hv.
  destruct t as [k tag|[k tag|t']].
  - destruct k; try done; split; intros [x Hx];
      try discriminate Hx; by eexists.
  - destruct k; try done; split; intros [x Hx];
      try discriminate Hx; by eexists.
  - split; intros [x Hx]; discriminate Hx.
Qed.

End Conversions.

Lemma GoTypeFor_pointer_rule_witness :
  ∃ g, GoTypeFor (Some (cc.Base cc.Float 0)) "x" [] = Text g ∧
       GoTypeFor (Some float_ptr) "x" [] =
         Text ((if is_scalar_name "x" then "" else "[]") +:+ g).
Proof. apply (GoTypeFor_pointer_rule cc.Float 0 "x"). reflexivity. Defined.

Lemma CgoConversionFor_indexes_slices_witness :
  ∃ pre suf, ∀ name,
    CgoConversionFor name (Some float_ptr) [] =
      Text (pre +:+ name +:+
            (if is_scalar_name name then "" else "[0]") +:+ suf).
Proof. apply (CgoConversionFor_indexes_slices cc.Float 0). reflexivity. Defined.

Lemma unmapped_types_ignored_witness :
  GoTypeFor (Some float_ptr) "x" ([void_only] ++ []) =
    GoTypeFor (Some float_ptr) "x" [] ∧
  CgoConversionFor "x" (Some float_ptr) ([void_only] ++ []) =
    CgoConversionFor "x" (Some float_ptr) [].
Proof.
  apply (unmapped_types_ignored float_ptr "x" [void_only] []).
  intros m Hm. apply list_elem_of_singleton in Hm. subst m. reflexivity.
Defined.

Lemma defaults_cover_same_types_witness :
  (∃ g, GoTypeFor (Some float_ptr) "x" [] = Text g) ↔
  (∃ c, CgoConversionFor "x" (Some float_ptr) [] = Text c).
Proof. apply (defaults_cover_same_types float_ptr "x"); discriminate. Defined.

(** ** Enumerations *)

Section EnumFacts.

Variable Dict : N → string.

(** X19.  The two functions for enumerations are one function.  They
    return a text only for a named enumeration whose name some user
    mapping has, and then what the first such mapping's template writes:
    there is no built-in table, an anonymous enumeration and a type that
    is no enumeration make them panic whatever the mappings. *)
Theorem enum_functions_return_iff t name types out :
  (GoTypeForEnum Dict (Some t) name types = Text out ↔
     cc.kind t = cc.Enum ∧ cc.Tag t ≠ 0%N ∧
     ∃ s, first_mapping types (Dict (cc.Tag t)) = Some s ∧
          s name = Some out) ∧
  CgoConversionForEnum Dict name (Some t) types =
    GoTypeForEnum Dict (Some t) name types.
Proof.
  split; [|done]. unfold GoTypeForEnum, execute_template.
  case_bool_decide as Hk.
  { split; [done|]. by intros [? _]. }
  case_bool_decide as Ht.
  - destruct (first_mapping types (Dict (cc.Tag t))) as [s|] eqn:Hs.
    + destruct (s name) as [o|] eqn:Ho.
      * split; [intros [= <-]; eauto 6|].
        intros (_ & _ & s' & [= <-] & Hs'). congruence.
      * split; [done|]. intros (_ & _ & s' & [= <-] & Hs'). congruence.
    + split; [done|]. by intros (_ & _ & s' & ? & _).
  - split; [done|]. by intros (_ & ? & _).
Qed.

End EnumFacts.

(** ** DocComments *)

Section DocFacts.

Lemma foldl_concat {A B} (f : A → B → A) (ls : list (list B)) a :
  foldl (λ a l, foldl f a l) a ls = foldl f a (concat ls).
Proof.
  revert a. induction ls as [|l ls IH]; intros a; simpl; [done|].
  by rewrite foldl_app, IH.
Qed.

Lemma DocComments_all_decls pkgs :
  DocComments (inr pkgs) = (Some (foldl add_decl ∅ (all_decls pkgs)), None).
Proof. unfold DocComments, all_decls. by rewrite !foldl_concat. Qed.

Lemma doc_of_add_decl docs d typ n :
  doc_of (add_decl docs d) typ n =
    match documented typ n d with
    | Some c => Some c
    | None => doc_of docs typ n
    end.
Proof.
  unfold doc_of, add_decl, documented.
  destruct d as [fn|]; [|done].
  destruct (Doc fn) as [c|] eqn:Hd.
  - destruct (decide (receiver_name fn = typ)) as [<-|Hne].
    + rewrite lookup_insert_eq. simpl.
      destruct (decide (Name fn = n)) as [<-|Hnn].
      * rewrite bool_decide_eq_true_2 by done. by rewrite lookup_insert_eq.
      * rewrite bool_decide_eq_false_2 by (by intros [_ ?]).
        rewrite lookup_insert_ne by done.
        by destruct (docs !! receiver_name fn).
    + rewrite lookup_insert_ne by done.
      by rewrite bool_decide_eq_false_2 by (by intros [? _]).
  - by case_bool_decide.
Qed.

Lemma doc_of_foldl l docs typ n :
  doc_of (foldl add_decl docs l) typ n =
    match last (omap (documented typ n) l) with
    | Some c => Some c
    | None => doc_of docs typ n
    end.
Proof.
  induction l as [|d l IH] using rev_ind; [done|].
  rewrite foldl_app. simpl. rewrite doc_of_add_decl, omap_app. simpl.
  destruct (documented typ n d) as [c|].
  - by rewrite last_snoc.
  - by rewrite app_nil_r.
Qed.

(** X20.  When the directory parses, [DocComments] returns no error and
    a map in which [docs[typ][n]] is the comment of the last documented
    function filed under [typ] with the name [n], and is absent when
    there is none: undocumented functions and other declarations leave
    no trace, and of two documented functions with one key the one the
    loops visit later replaces the other. *)
Theorem DocComments_last_wins pkgs typ n :
  ∃ docs, DocComments (inr pkgs) = (Some docs, None) ∧
          doc_of docs typ n = last (omap (documented typ n) (all_decls pkgs)).
Proof.
  eexists. split; [apply DocComments_all_decls|].
  rewrite doc_of_foldl. by destruct (last _).
Qed.

Lemma keys_foldl l typ d :
  foldl add_decl ∅ l !! typ = Some d →
  d ≠ ∅ ∧ ∃ fn, FuncD fn ∈ l ∧ is_Some (Doc fn) ∧ receiver_name fn = typ.
Proof.
  revert typ d. induction l as [|x l IH] using rev_ind; intros typ d.
  { simpl. by rewrite lookup_empty. }
  rewrite foldl_app. simpl. unfold add_decl at 1.
  assert (∀ typ d, foldl add_decl ∅ l !! typ = Some d →
            d ≠ ∅ ∧ ∃ fn, FuncD fn ∈ l ++ [x] ∧ is_Some (Doc fn) ∧
                          receiver_name fn = typ) as IH'.
  { intros ty d' H. destruct (IH _ _ H) as (? & fn & ? & ? & ?).
    split; [done|]. exists fn. split_and!; try done.
    apply elem_of_app. by left. }
  destruct x as [fn|]; [|by apply IH'].
  destruct (Doc fn) as [c|] eqn:Hd; [|by apply IH'].
  destruct (decide (receiver_name fn = typ)) as [<-|Hne].
  - rewrite lookup_insert_eq. intros [= <-]. split.
    + apply insert_non_empty.
    + exists fn. split_and!;
        [apply elem_of_app; right; by left | by rewrite Hd | done].
  - rewrite lookup_insert_ne by done. by apply IH'.
Qed.

(** X21.  Every type name in the map [DocComments] returns is there for
    a reason: its inner map is not empty, and some documented function
    of the directory is filed under it. *)
Theorem DocComments_keys pkgs docs typ d :
  DocComments (inr pkgs) = (Some docs, None) → docs !! typ = Some d →
  d ≠ ∅ ∧
  ∃ fn, FuncD fn ∈ all_decls pkgs ∧ is_Some (Doc fn) ∧ receiver_name fn = typ.
Proof.
  rewrite DocComments_all_decls. intros [= <-]. apply keys_foldl.
Qed.

(** X22.  A method is filed under its type only when the receiver's type
    is a plain identifier.  In a directory whose methods all have
    pointer receivers the map has no key but the empty string, the key
    of functions that are no methods. *)
Theorem DocComments_pointer_receivers pkgs docs typ :
  (∀ fn e es, FuncD fn ∈ all_decls pkgs → Recv fn = Some (e :: es) →
              ∃ x, e = StarExpr x) →
  DocComments (inr pkgs) = (Some docs, None) →
  is_Some (docs !! typ) → typ = "".
Proof.
  intros Hp Hd [d Hl]. rewrite DocComments_all_decls in Hd.
  injection Hd as <-.
  destruct (keys_foldl _ _ _ Hl) as (_ & fn & Hin & _ & <-).
  unfold receiver_name. destruct (Recv fn) as [[|e es]|] eqn:Hr; try done.
  by destruct (Hp fn e es Hin Hr) as [x ->].
Qed.

End DocFacts.

Lemma DocComments_keys_witness :
  ∃ docs d,
    DocComments (inr [[decls4]]) = (Some docs, None) ∧
    docs !! "Device" = Some d ∧ d ≠ ∅ ∧
    ∃ fn, FuncD fn ∈ all_decls [[decls4]] ∧ is_Some (Doc fn) ∧
          receiver_name fn = "Device".
Proof.
  eexists _, {["String" := ["// String formats the device"]]}.
  split; [reflexivity|]. split; [by vm_compute|].
  apply (DocComments_keys [[decls4]] _ "Device" _ eq_refl).
  by vm_compute.
Defined.

Lemma DocComments_pointer_receivers_witness :
  ∃ docs, DocComments (inr [[decls_ptr]]) = (Some docs, None) ∧
          doc_of docs "" "Close" = Some ["// Close frees the memory"] ∧
          ¬ is_Some (docs !! "Ctx").
Proof.
  eexists. split; [reflexivity|]. split; [by vm_compute|].
  intros H.
  apply (DocComments_pointer_receivers [[decls_ptr]] _ "Ctx") in H;
    [discriminate H | | reflexivity].
  intros fn e es Hin Hr. unfold all_decls, decls_ptr in Hin. simpl in Hin.
  repeat (apply elem_of_cons in Hin as [[= ->]|Hin]);
    [injection Hr as <- <-; eauto..|by apply elem_of_nil in Hin].
Defined.
